(** * Shallow embedding of the casenotes-chatbot retrieval core

    - [Chunking]: [app/services/chunking.py], [chunk_text].
    - [VectorSearch]: [app/services/vector_search.py], [find_similar_chunks].
    - [Llm]: [app/services/llm.py], history truncation of [generate_answer].
    - [Embedding]: [app/services/embedding.py], [_call_hf_api],
      [embed_query] and [embed_documents], with the fields of [Settings]
      ([app/core/config.py]).
    - [Prompt], [Transcript]: the user turn of [generate_answer]
      ([app/services/llm.py]) and the chat history of [chat]
      ([app/api/routes/chat.py], [app/models/tables.py]).
    - [Preview]: the text previews of [chat] and [app/api/routes/debug.py].
    - [EmbedNotes]: [scripts/embed_notes.py], [main].
    - [DbUrl]: [app/core/database.py], [_prepare_asyncpg_url].
    - [CaseList]: [app/api/routes/cases.py], [list_cases].
    - [DebugView]: [app/api/routes/debug.py], [list_chunks_for_case].

    Python [str] values are modelled as [string] (ASCII), Python [int] as [Z],
    list indices as [nat]. *)

From Stdlib Require Import String Ascii List ZArith QArith Lia Bool.
From Stdlib Require Import Sorting.Sorted Sorting.Permutation.
Import ListNotations.
Open Scope Z_scope.

(* ================================================================== *)
(** ** Python string helpers *)

Module Py.

(** [len(s)] *)
Definition len (s : string) : Z := Z.of_nat (String.length s).

(** [str.isspace] on one ASCII character:
    \t \n \x0b \x0c \r \x1c \x1d \x1e \x1f and the space. *)
Definition is_space (c : ascii) : bool :=
  let n := nat_of_ascii c in
  ((9 <=? n) && (n <=? 13))%nat || ((28 <=? n) && (n <=? 32))%nat.

Fixpoint lstrip_list (cs : list ascii) : list ascii :=
  match cs with
  | [] => []
  | c :: cs' => if is_space c then lstrip_list cs' else cs
  end.

(** [s.strip()] *)
Definition strip (s : string) : string :=
  string_of_list_ascii
    (rev (lstrip_list (rev (lstrip_list (list_ascii_of_string s))))).

(** [" ".join(xs)] *)
Definition join (xs : list string) : string := String.concat " "%string xs.

(** Length of [" ".join(xs)]. *)
Definition jl (xs : list string) : Z := len (join xs).

(** [xs[a:b]] for [0 <= a <= b]. *)
Definition slice {A} (a b : nat) (xs : list A) : list A :=
  firstn (b - a) (skipn a xs).

End Py.

Import Py.

(* ================================================================== *)
(** ** chunking.py *)

Module Chunking.

(** One chunk built by the outer loop of [chunk_text]: the value of
    [chunk_start_idx], the value of [j] after step 1, and [chunk_sents].
    The code appends [" ".join(chunk_sents)] to [chunks]. *)
Record built := mk_built {
  b_start : nat;
  b_end : nat;
  b_sents : list string
}.

Section ChunkText.

(** [nltk.tokenize.sent_tokenize], an external collaborator. *)
Variable sent_tokenize : string -> list string.

Variables max_chars min_overlap_chars max_overlap_chars : Z.

(** Step 1, the forward fill loop [while j < len(sentences)].
    [rest] is [sentences[j:]]; the result is [(chunk_sents, j)] at the
    loop exit. *)
Fixpoint fill (rest : list string) (chunk_sents : list string)
    (char_count : Z) (j : nat) : list string * nat :=
  match rest with
  | [] => (chunk_sents, j)
  | s :: rest' =>
      let separator := match chunk_sents with [] => 0 | _ => 1 end in
      if (char_count + separator + len s >? max_chars)
         && negb (match chunk_sents with [] => true | _ => false end)
      then (chunk_sents, j)
      else fill rest' (chunk_sents ++ [s])%list (char_count + separator + len s)
             (S j)
  end.

(** Step 2, the backward overlap walk [while overlap_start > chunk_start_idx].
    [fuel] bounds the number of iterations (each one decrements
    [overlap_start]); the result is [(overlap_start, overlap_char_count)]
    at the loop exit. *)
Fixpoint overlap_walk (sentences : list string) (chunk_start_idx j : nat)
    (fuel : nat) (overlap_start : nat) (overlap_char_count : Z) : nat * Z :=
  match fuel with
  | O => (overlap_start, overlap_char_count)
  | S fuel' =>
      if (chunk_start_idx <? overlap_start)%nat then
        let candidate_idx := pred overlap_start in
        let candidate_text := nth candidate_idx sentences ""%string in
        let space := if (overlap_start <? j)%nat then 1 else 0 in
        let addition := len candidate_text + space in
        if overlap_char_count + addition >? max_overlap_chars then
          (overlap_start, overlap_char_count)
        else if overlap_char_count + addition >=? min_overlap_chars then
          (candidate_idx, overlap_char_count + addition)
        else overlap_walk sentences chunk_start_idx j fuel' candidate_idx
               (overlap_char_count + addition)
      else (overlap_start, overlap_char_count)
  end.

(** One pass of the outer loop body, steps 1 and the edge case. *)
Definition build_chunk (sentences : list string) (chunk_start_idx : nat)
    : built :=
  let '(chunk_sents, j) := fill (skipn chunk_start_idx sentences) [] 0
                             chunk_start_idx in
  match chunk_sents with
  | [] => mk_built chunk_start_idx (S chunk_start_idx)
            [nth chunk_start_idx sentences ""%string]
  | _ => mk_built chunk_start_idx j chunk_sents
  end.

(** Step 2 and the safety rule: the next [chunk_start_idx]. *)
Definition next_start (sentences : list string) (chunk_start_idx j : nat)
    : nat :=
  let overlap_start := fst (overlap_walk sentences chunk_start_idx j j j 0) in
  if (overlap_start <=? chunk_start_idx)%nat then S chunk_start_idx
  else overlap_start.

(** The outer loop [while chunk_start_idx < len(sentences)]; [fuel] bounds
    the number of iterations ([chunk_start_idx] strictly grows). *)
Fixpoint chunk_loop (sentences : list string) (fuel : nat)
    (chunk_start_idx : nat) : list built :=
  match fuel with
  | O => []
  | S fuel' =>
      if (chunk_start_idx <? length sentences)%nat then
        let c := build_chunk sentences chunk_start_idx in
        if (length sentences <=? b_end c)%nat then [c]
        else c :: chunk_loop sentences fuel'
                    (next_start sentences chunk_start_idx (b_end c))
      else []
  end.

Definition chunks_of (sentences : list string) : list built :=
  chunk_loop sentences (length sentences) 0.

(** [chunk_text(text, max_chars, min_overlap_chars, max_overlap_chars)] *)
Definition chunk_text (text : string) : list string :=
  let sentences := sent_tokenize text in
  match sentences with
  | [] => if String.eqb (strip text) ""%string then [] else [strip text]
  | _ =>
      if len text <=? max_chars then [text]
      else map (fun c => join (b_sents c)) (chunks_of sentences)
  end.

End ChunkText.

(** [P] holds of every pair of consecutive chunks. *)
Fixpoint adjacent (P : built -> built -> Prop) (cs : list built) : Prop :=
  match cs with
  | [] => True
  | c :: cs' =>
      match cs' with
      | [] => True
      | c' :: _ => P c c' /\ adjacent P cs'
      end
  end.

(** The sentences of each chunk past the overlap inherited from the
    previous one; [prev_end] is the [j] of the previous chunk. *)
Fixpoint new_parts (prev_end : nat) (cs : list built) : list (list string) :=
  match cs with
  | [] => []
  | c :: cs' =>
      skipn (prev_end - b_start c) (b_sents c) :: new_parts (b_end c) cs'
  end.

(** The invariant of step 1: within [max_chars], or at most one sentence. *)
Definition fits (max_chars : Z) (cs : list string) : Prop :=
  jl cs <= max_chars \/ (length cs <= 1)%nat.

End Chunking.


(* ================================================================== *)
(** ** A concrete sentence segmenter

    [sent_tokenize] is NLTK's Punkt tokenizer.  For plain text made of
    sentences ending in [.], [!] or [?] followed by white space it splits
    after the terminator and drops the white space between sentences; the
    definition below does exactly that and serves to run the model on
    concrete notes. *)

Module Segmenter.

Definition is_terminal (c : ascii) : bool :=
  (c =? "."%char)%char || (c =? "!"%char)%char || (c =? "?"%char)%char.

(** [cur] is the sentence being read, reversed. *)
Fixpoint seg_go (cs : list ascii) (cur : list ascii) : list (list ascii) :=
  match cs with
  | [] => match cur with [] => [] | _ => [rev (lstrip_list cur)] end
  | c :: cs' =>
      if is_space c then
        match cur with
        | [] => seg_go cs' []
        | d :: _ =>
            if is_terminal d then rev cur :: seg_go cs' []
            else seg_go cs' (c :: cur)
        end
      else seg_go cs' (c :: cur)
  end.

Definition split_sentences (text : string) : list string :=
  map string_of_list_ascii (seg_go (list_ascii_of_string text) []).

End Segmenter.

(* ================================================================== *)
(** ** vector_search.py *)

Module VectorSearch.

(** A row of [note_chunks] ([models/tables.py], [NoteChunk]).  UUIDs are
    kept as their text form; [created_at] is a [TIMESTAMPTZ] in
    microseconds since the epoch of the session time zone; the embedding is
    [NULL] until [embed_notes.py] fills it in. *)
Record note_chunk := mk_note_chunk {
  id : string;
  note_id : string;
  case_id : string;
  chunk_index : Z;
  chunk_text : string;
  embedding : option (list Q);
  created_at : Z;
  caseworker_name : option string;
  note_type : option string
}.

(** One dict of the returned list. *)
Record retrieved := mk_retrieved {
  r_chunk_id : string;
  r_note_id : string;
  r_chunk_index : Z;
  r_chunk_text : string;
  r_created_at : Z;
  r_note_type : option string;
  r_caseworker_name : option string;
  r_similarity : Q
}.

Definition usec_per_day : Z := 86400 * 1000000.

(** A [DATE] compared with a [TIMESTAMPTZ] is its midnight. *)
Definition date_midnight (d : Z) : Z := d * usec_per_day.

(** [datetime.combine(end_date, time(23, 59, 59))] *)
Definition end_of_day (d : Z) : Z := d * usec_per_day + 86399 * 1000000.

(** How Postgres reads [note_chunks] for the query: a sequential scan
    reads every row; an [ivfflat] index scan (the index of
    [scripts/seed_data.py], [lists = 100]) reads only the rows filed under
    the probed lists, and the [WHERE] clause is applied to those rows. *)
Inductive scan :=
  | SeqScan
  | IvfflatScan (probed : note_chunk -> bool).

Definition scanned (sc : scan) (table : list note_chunk) : list note_chunk :=
  match sc with
  | SeqScan => table
  | IvfflatScan probed => filter probed table
  end.

(** Stable insertion by a key, ascending ([ORDER BY]). *)
Fixpoint insert_by {A} (key : A -> Q) (x : A) (l : list A) : list A :=
  match l with
  | [] => [x]
  | y :: l' => if Qle_bool (key x) (key y) then x :: l
               else y :: insert_by key x l'
  end.

Definition sort_by {A} (key : A -> Q) (l : list A) : list A :=
  fold_right (insert_by key) [] l.

(** The order [ORDER BY] produces. *)
Definition key_le {A} (key : A -> Q) (x y : A) : Prop := (key x <= key y)%Q.

Section Query.

(** pgvector's cosine distance [<=>], an operator of the external index. *)
Variable cosine_distance : list Q -> list Q -> Q.

(** The [WHERE] clause. *)
Definition row_matches (case_id' : string) (start_date end_date : Z)
    (r : note_chunk) : bool :=
  String.eqb (case_id r) case_id'
  && (date_midnight start_date <=? created_at r)
  && (created_at r <=? end_of_day end_date)
  && match embedding r with Some _ => true | None => false end.

(** [embedding <=> query]; only evaluated on rows with an embedding. *)
Definition distance (query_vector : list Q) (r : note_chunk) : Q :=
  match embedding r with
  | Some v => cosine_distance v query_vector
  | None => 0
  end.

Definition to_retrieved (query_vector : list Q) (r : note_chunk) : retrieved :=
  mk_retrieved (id r) (note_id r) (chunk_index r) (chunk_text r)
    (created_at r) (note_type r) (caseworker_name r)
    (1 - distance query_vector r).

(** [find_similar_chunks(db, case_id, start_date, end_date, query_vector)]
    with [top_k] = [settings.TOP_K]. *)
Definition find_similar_chunks (sc : scan) (table : list note_chunk)
    (top_k : nat) (case_id' : string) (start_date end_date : Z)
    (query_vector : list Q) : list retrieved :=
  let rows :=
    firstn top_k
      (sort_by (distance query_vector)
         (filter (row_matches case_id' start_date end_date)
            (scanned sc table))) in
  map (to_retrieved query_vector) rows.

End Query.

(** [settings.TOP_K] *)
Definition TOP_K : nat := 6.

End VectorSearch.

(* ================================================================== *)
(** ** llm.py *)

Module Llm.

(** A prior message, [{"role": ..., "content": ...}]. *)
Record message := mk_message { role : string; content : string }.

(** A Gemini [Content] item, [{"role": ..., "parts": [...]}]. *)
Record content_item := mk_content { c_role : string; c_parts : list string }.

Definition MAX_HISTORY_TURNS : Z := 10.

(** Python [xs[start:]] for an [int] start (a negative start counts from
    the end and is clamped at 0). *)
Definition py_slice_from {A} (xs : list A) (start : Z) : list A :=
  let n := Z.of_nat (length xs) in
  let s := if start <? 0 then Z.max 0 (n + start) else Z.min start n in
  skipn (Z.to_nat s) xs.

(** [prior_messages[-(MAX_HISTORY_TURNS * 2):]] *)
Definition history_messages (prior_messages : list message) : list message :=
  py_slice_from prior_messages (- (MAX_HISTORY_TURNS * 2)).

Definition gemini_role (m : message) : string :=
  if String.eqb (role m) "assistant" then "model" else "user".

Definition to_history (m : message) : content_item :=
  mk_content (gemini_role m) [content m].

(** The [contents] argument of [_model.generate_content] in
    [generate_answer]; [full_user_message] is the context block followed by
    the question (steps 1 and 2). *)
Definition generate_contents (full_user_message : string)
    (prior_messages : list message) : list content_item :=
  map to_history (history_messages prior_messages)
  ++ [mk_content "user" [full_user_message]].

(** One turn-pair as stored by [routes/chat.py]: the user message and the
    assistant reply, committed together. *)
Definition pair_messages (p : message * message) : list message :=
  [fst p; snd p].

End Llm.

(* ================================================================== *)
(** ** embedding.py *)

Module Embedding.

Definition BGE_QUERY_PREFIX : string :=
  "Represent this sentence for searching relevant passages: ".

(** The attributes of [settings] ([app/core/config.py]): the fields
    [Settings] declares.  With [extra="ignore"], a variable of the
    environment or of [.env] that is not one of them is dropped, so reading
    any other attribute raises [AttributeError]. *)
Definition settings_fields : list string :=
  ["DATABASE_URL"; "GOOGLE_API_KEY"; "EMBEDDING_MODEL"; "EMBEDDING_DIM";
   "TOP_K"; "ALLOWED_ORIGINS"]%string.

Definition has_setting (name : string) : bool :=
  existsb (String.eqb name) settings_fields.

(** What the Inference API answers to one POST. *)
Inductive hf_response :=
  | Loading (estimated_time : Z)          (* HTTP 503, model loading *)
  | HttpError (status : Z)                (* raise_for_status raises *)
  | Vectors (result : list (list Q))      (* HTTP 200, [batch, dims] *)
  | TokenVectors (result : list (list (list Q))).
                                          (* HTTP 200, [batch, tokens, dims] *)

(** A Python call either returns a value or raises. *)
Inductive outcome (A : Type) :=
  | Returned (a : A)
  | Raised (msg : string).
Arguments Returned {A} a.
Arguments Raised {A} msg.

(** [[item[0] for item in result]] *)
Fixpoint first_tokens (result : list (list (list Q)))
    : outcome (list (list Q)) :=
  match result with
  | [] => Returned []
  | [] :: _ => Raised "IndexError"
  | (v :: _) :: rest =>
      match first_tokens rest with
      | Returned vs => Returned (v :: vs)
      | Raised m => Raised m
      end
  end.

(** [if result and isinstance(result[0][0], list): ...; return result]
    on a [[batch, dims]] body ([result[0][0]] is a number) and on a
    [[batch, tokens, dims]] body ([result[0][0]] is a list). *)
Definition vectors_result (result : list (list Q)) : outcome (list (list Q)) :=
  match result with
  | [] => Returned []
  | [] :: _ => Raised "IndexError"
  | _ => Returned result
  end.

Definition token_vectors_result (result : list (list (list Q)))
    : outcome (list (list Q)) :=
  match result with
  | [] => Returned []
  | [] :: _ => Raised "IndexError"
  | _ => first_tokens result
  end.

Section Api.

(** The server: its answer to the [attempt]-th POST of [{"inputs": texts}]. *)
Variable respond : nat -> list string -> hf_response.

(** [for attempt in range(3)] in [_call_hf_api]; the first component lists
    the [inputs] of every POST sent, in order. *)
Fixpoint attempts (attempt fuel : nat) (texts : list string)
    : list (list string) * outcome (list (list Q)) :=
  match fuel with
  | O => ([], Raised "HF model still loading after 3 retries")
  | S fuel' =>
      match respond attempt texts with
      | Loading _ =>
          let '(posts, r) := attempts (S attempt) fuel' texts in
          (texts :: posts, r)
      | HttpError _ => ([texts], Raised "HTTPStatusError")
      | Vectors result => ([texts], vectors_result result)
      | TokenVectors result => ([texts], token_vectors_result result)
      end
  end.

(** [_call_hf_api(texts)]: the [headers] dict reads [settings.HF_TOKEN]
    before the loop. *)
Definition call_hf_api (texts : list string)
    : list (list string) * outcome (list (list Q)) :=
  if has_setting "HF_TOKEN" then attempts 0 3 texts
  else ([], Raised "AttributeError").

(** [embed_documents(texts)] *)
Definition embed_documents (texts : list string)
    : list (list string) * outcome (list (list Q)) :=
  call_hf_api texts.

(** [embed_query(query)]: [_call_hf_api([BGE_QUERY_PREFIX + query])[0]]. *)
Definition embed_query (query : string)
    : list (list string) * outcome (list Q) :=
  let '(posts, r) := call_hf_api [(BGE_QUERY_PREFIX ++ query)%string] in
  (posts,
   match r with
   | Returned (v :: _) => Returned v
   | Returned [] => Raised "IndexError"
   | Raised m => Raised m
   end).

End Api.

End Embedding.

(* ================================================================== *)
(** ** llm.py: the user turn of [generate_answer] (steps 1 and 2) *)

Module Prompt.
Import VectorSearch.
Local Open Scope string_scope.

(** ["\n"] *)
Definition nl : string := String (Ascii.ascii_of_nat 10) EmptyString.

(** Python's [value or default] for an optional string: [None] and [""]
    are falsy. *)
Definition py_or (v : option string) (default : string) : string :=
  match v with
  | Some s => if String.eqb s "" then default else s
  | None => default
  end.

Definition no_context : string :=
  "No case note excerpts were found for this question within the selected date window.".

Definition context_header : string := "**Relevant case note excerpts:**" ++ nl.

Section Context.

(** [ts.strftime("%Y-%m-%d")] of a note's [created_at]. *)
Variable strftime_date : Z -> string.

(** [f"[{date_str}, {note_type}, {cw}]:\n{note['chunk_text']}\n"] *)
Definition context_line (note : retrieved) : string :=
  "[" ++ strftime_date (r_created_at note) ++ ", "
  ++ py_or (r_note_type note) "unknown" ++ ", "
  ++ py_or (r_caseworker_name note) "unknown caseworker" ++ "]:" ++ nl
  ++ r_chunk_text note ++ nl.

(** Step 1: [context_block]. *)
Definition context_block (retrieved_notes : list retrieved) : string :=
  match retrieved_notes with
  | [] => no_context
  | _ => String.concat nl (context_header :: map context_line retrieved_notes)
  end.

(** Step 2: [f"{context_block}\n\n**Question:** {user_question}"]. *)
Definition full_user_message (user_question : string)
    (retrieved_notes : list retrieved) : string :=
  context_block retrieved_notes ++ nl ++ nl ++ "**Question:** "
  ++ user_question.

(** The [contents] [generate_answer] sends to Gemini. *)
Definition generate_request (user_question : string)
    (retrieved_notes : list retrieved) (prior_messages : list Llm.message)
    : list Llm.content_item :=
  Llm.generate_contents (full_user_message user_question retrieved_notes)
    prior_messages.

End Context.

End Prompt.

(* ================================================================== *)
(** ** Source previews ([routes/chat.py] and [routes/debug.py]) *)

Module Preview.

(** A Python [str] is its list of code points; ["…"] is U+2026. *)
Definition ellipsis : Z := 8230.

(** [text[:limit] + ("…" if len(text) > limit else "")]; [debug.py]
    computes the same with SQL [left(chunk_text, 200)] and
    [length(chunk_text) > 200]. *)
Definition preview (limit : nat) (text : list Z) : list Z :=
  firstn limit text ++ (if (limit <? length text)%nat then [ellipsis] else []).

(** The ["snippet"] of a source in [chat]. *)
Definition snippet (chunk_text : list Z) : list Z := preview 300 chunk_text.

End Preview.

(* ================================================================== *)
(** ** Stored conversation ([routes/chat.py], [models/tables.py]) *)

Module Transcript.

(** A [chat_messages] row. *)
Record stored_message := mk_stored {
  s_role : string;
  s_content : string;
  s_created_at : Z
}.

(** One [chat] call [(t, question, answer)]: both rows are added in the
    request's transaction, and [created_at]'s [server_default=func.now()]
    is that transaction's start time [t]. *)
Definition turn_rows (turn : Z * string * string) : list stored_message :=
  let '(t, question, answer) := turn in
  [mk_stored "user" question t; mk_stored "assistant" answer t].

Definition turn_time (turn : Z * string * string) : Z :=
  let '(t, _, _) := turn in t.

Definition stored_rows (turns : list (Z * string * string))
    : list stored_message :=
  concat (map turn_rows turns).

(** What [selectinload(ChatSession.messages)] with
    [order_by="ChatMessage.created_at"] may return: the rows ordered by
    [created_at]; Postgres leaves the order of equal keys open. *)
Definition loadable (rows loaded : list stored_message) : Prop :=
  Permutation loaded rows
  /\ Sorted (fun x y => s_created_at x <= s_created_at y) loaded.

(** A turn's two rows in either order. *)
Definition turn_block (turn : Z * string * string) (flip : bool)
    : list stored_message :=
  if flip then rev (turn_rows turn) else turn_rows turn.

Definition blocks (tf : list ((Z * string * string) * bool))
    : list stored_message :=
  concat (map (fun p => turn_block (fst p) (snd p)) tf).

(** [prior_messages] in [chat]: [{"role": m.role, "content": m.content}]. *)
Definition prior_messages (loaded : list stored_message) : list Llm.message :=
  map (fun m => Llm.mk_message (s_role m) (s_content m)) loaded.

Fixpoint increasing (ts : list Z) : bool :=
  match ts with
  | x :: ((y :: _) as rest) => (x <? y) && increasing rest
  | _ => true
  end.

End Transcript.

(* ================================================================== *)
(** ** scripts/embed_notes.py *)

Module EmbedNotes.
Import VectorSearch.

(** A [case_notes] row. *)
Record case_note := mk_case_note {
  cn_id : string;
  cn_case_id : string;
  cn_note_text : string;
  cn_caseworker_name : option string;
  cn_note_type : option string;
  cn_created_at : Z
}.

Definition EMBED_BATCH_SIZE : nat := 16.

(** Stable insertion sort by a boolean [<=]. *)
Fixpoint insert_le {A} (le : A -> A -> bool) (x : A) (l : list A) : list A :=
  match l with
  | [] => [x]
  | y :: l' => if le x y then x :: l else y :: insert_le le x l'
  end.

Definition sort_le {A} (le : A -> A -> bool) (l : list A) : list A :=
  fold_right (insert_le le) [] l.

(** [ORDER BY created_at, chunk_index] *)
Definition row_order_le (a b : note_chunk) : bool :=
  (created_at a <? created_at b)
  || ((created_at a =? created_at b) && (chunk_index a <=? chunk_index b)).

(** [range(start, stop, step)] *)
Fixpoint py_range (fuel start stop step : nat) : list nat :=
  match fuel with
  | O => []
  | S fuel' =>
      if (start <? stop)%nat then start :: py_range fuel' (start + step) stop step
      else []
  end.

(** [pending_chunks[batch_start : batch_start + EMBED_BATCH_SIZE]] for
    [batch_start in range(0, len(pending_chunks), EMBED_BATCH_SIZE)]. *)
Definition batches {A} (l : list A) : list (list A) :=
  map (fun bs => Py.slice bs (bs + EMBED_BATCH_SIZE) l)
    (py_range (length l) 0 (length l) EMBED_BATCH_SIZE).

(** [total_batches] *)
Definition total_batches (n : nat) : nat :=
  ((n + EMBED_BATCH_SIZE - 1) / EMBED_BATCH_SIZE)%nat.

(** [UPDATE note_chunks SET embedding = %s::vector WHERE id = %s::uuid] *)
Definition set_embedding (chunk_id : string) (v : list Q)
    (table : list note_chunk) : list note_chunk :=
  map (fun r => if String.eqb (id r) chunk_id then
                  mk_note_chunk (id r) (note_id r) (case_id r) (chunk_index r)
                    (chunk_text r) (Some v) (created_at r)
                    (caseworker_name r) (note_type r)
                else r) table.

(** The updates of one batch, [zip(chunk_ids, vectors)]. *)
Fixpoint apply_updates (pairs : list (string * list Q))
    (table : list note_chunk) : list note_chunk :=
  match pairs with
  | [] => table
  | (cid, v) :: rest => apply_updates rest (set_embedding cid v table)
  end.

(** Step 3: [WHERE embedding IS NULL ORDER BY created_at, chunk_index]. *)
Definition pending_chunks (table : list note_chunk) : list note_chunk :=
  sort_le row_order_le
    (filter (fun r => match embedding r with None => true | Some _ => false end)
       table).

Section Script.

(** [chunk_text] with its default parameters. *)
Variable chunker : string -> list string.

(** [str(uuid.uuid4())] for the [k]-th chunk inserted in this run. *)
Variable new_uuid : nat -> string.

(** The Inference API during batch [batch_num]: its answer to the
    [attempt]-th POST of [texts]. *)
Variable respond : nat -> nat -> list string -> Embedding.hf_response.

Definition has_chunks (table : list note_chunk) (n : case_note) : bool :=
  existsb (fun c => String.eqb (note_id c) (cn_id n)) table.

(** Step 1: [case_notes LEFT JOIN note_chunks ... WHERE nc.id IS NULL
    ORDER BY cn.created_at]. *)
Definition pending_notes (notes : list case_note) (table : list note_chunk)
    : list case_note :=
  sort_by (fun n => inject_Z (cn_created_at n))
    (filter (fun n => negb (has_chunks table n)) notes).

(** The [INSERT] of chunk [idx] of note [n]; [first_id] counts the chunks
    inserted before this note. *)
Definition chunk_row (n : case_note) (first_id idx : nat) (chunk : string)
    : note_chunk :=
  mk_note_chunk (new_uuid (first_id + idx)) (cn_id n) (cn_case_id n)
    (Z.of_nat idx) chunk None (cn_created_at n) (cn_caseworker_name n)
    (cn_note_type n).

(** [for idx, chunk in enumerate(chunks)] *)
Fixpoint enum_rows (n : case_note) (first_id idx : nat) (chunks : list string)
    : list note_chunk :=
  match chunks with
  | [] => []
  | c :: cs => chunk_row n first_id idx c :: enum_rows n first_id (S idx) cs
  end.

Definition note_rows (n : case_note) (first_id : nat) : list note_chunk :=
  enum_rows n first_id 0 (chunker (cn_note_text n)).

(** Step 2: the table and [total_chunks_inserted]. *)
Fixpoint insert_notes (pending : list case_note) (table : list note_chunk)
    (inserted : nat) : list note_chunk * nat :=
  match pending with
  | [] => (table, inserted)
  | n :: rest =>
      let rows := note_rows n inserted in
      insert_notes rest (table ++ rows) (inserted + length rows)
  end.

Definition chunk_phase (notes : list case_note) (table : list note_chunk)
    : list note_chunk * nat :=
  insert_notes (pending_notes notes table) table 0.

(** Step 4: the batches in order; an exception of [embed_documents] ends
    the script after the earlier batches' commits. *)
Fixpoint embed_batches (batch_num : nat) (bs : list (list note_chunk))
    (table : list note_chunk)
    : list note_chunk * Embedding.outcome unit :=
  match bs with
  | [] => (table, Embedding.Returned tt)
  | batch :: rest =>
      match snd (Embedding.embed_documents (respond batch_num)
                   (map chunk_text batch)) with
      | Embedding.Raised m => (table, Embedding.Raised m)
      | Embedding.Returned vectors =>
          embed_batches (S batch_num) rest
            (apply_updates (combine (map id batch) vectors) table)
      end
  end.

Definition embed_phase (table : list note_chunk)
    : list note_chunk * Embedding.outcome unit :=
  embed_batches 1 (batches (pending_chunks table)) table.

(** [main()] on the two tables. *)
Definition main (notes : list case_note) (table : list note_chunk)
    : list note_chunk * Embedding.outcome unit :=
  embed_phase (fst (chunk_phase notes table)).

End Script.

End EmbedNotes.

(* ================================================================== *)
(** ** core/database.py: [_prepare_asyncpg_url] on the parsed query *)

Module DbUrl.
Local Open Scope string_scope.

(** [parse_qs(parsed.query, keep_blank_values=True)]: a dict from each key
    to its values, in insertion order. *)
Definition query_dict := list (string * list string).

Fixpoint dict_get {V} (k : string) (d : list (string * V)) : option V :=
  match d with
  | [] => None
  | (k', v) :: d' => if String.eqb k' k then Some v else dict_get k d'
  end.

Definition dict_del {V} (k : string) (d : list (string * V))
    : list (string * V) :=
  filter (fun p => negb (String.eqb (fst p) k)) d.

(** [d.pop(k, default)] *)
Definition dict_pop {V} (k : string) (default : V) (d : list (string * V))
    : V * list (string * V) :=
  (match dict_get k d with Some v => v | None => default end, dict_del k d).

(** [{k: v[0] for k, v in params.items()}]; [v[0]] of an empty list
    raises [IndexError] ([None]). *)
Fixpoint first_values (d : query_dict) : option (list (string * string)) :=
  match d with
  | [] => Some []
  | (k, vs) :: d' =>
      match vs, first_values d' with
      | v :: _, Some rest => Some ((k, v) :: rest)
      | _, _ => None
      end
  end.

Definition SSL_MODES : list string := ["require"; "verify-ca"; "verify-full"].

(** The query [urlencode] receives, and whether [connect_args] gets
    [ssl=True]. *)
Definition prepare_params (params : query_dict)
    : option (list (string * string) * bool) :=
  let '(sslmode_values, p1) := dict_pop "sslmode" ["disable"] params in
  let p2 := dict_del "channel_binding" p1 in
  let sslmode := match sslmode_values with v :: _ => v | [] => "disable" end in
  match first_values p2 with
  | Some query => Some (query, existsb (String.eqb sslmode) SSL_MODES)
  | None => None
  end.

End DbUrl.

(* ================================================================== *)
(** ** api/routes/cases.py: [list_cases] *)

Module CaseList.
Import EmbedNotes.

(** A [cases] row. *)
Record case := mk_case {
  c_id : string;
  case_number : string;
  client_name : string
}.

(** SQL [MIN] and [MAX]: [NULL] over no rows. *)
Fixpoint sql_min (l : list Z) : option Z :=
  match l with
  | [] => None
  | x :: r => match sql_min r with None => Some x | Some m => Some (Z.min x m) end
  end.

Fixpoint sql_max (l : list Z) : option Z :=
  match l with
  | [] => None
  | x :: r => match sql_max r with None => Some x | Some m => Some (Z.max x m) end
  end.

(** [.date()] of a timestamp. *)
Definition to_date (t : Z) : Z := t / VectorSearch.usec_per_day.

(** The [created_at] values the [LEFT JOIN] pairs with case [c]. *)
Definition case_note_times (c : case) (notes : list case_note) : list Z :=
  map cn_created_at (filter (fun n => String.eqb (cn_case_id n) (c_id c)) notes).

(** One element of the response: case, [min_note_date], [max_note_date]. *)
Definition case_row (notes : list case_note) (c : case)
    : case * option Z * option Z :=
  (c, option_map to_date (sql_min (case_note_times c notes)),
      option_map to_date (sql_max (case_note_times c notes))).

End CaseList.

(* ================================================================== *)
(** ** api/routes/debug.py: [list_chunks_for_case] *)

Module DebugView.

(** A row of the [JOIN] query; the SQL expressions [length(...)] and
    [left(nc.chunk_text, 200)] are computed from [d_chunk_text]. *)
Record chunk_row := mk_chunk_row {
  d_note_id : string;
  d_note_date : Z;
  d_note_type : option string;
  d_caseworker_name : option string;
  d_chunk_id : string;
  d_chunk_index : Z;
  d_chunk_text : list Z;
  d_is_embedded : bool
}.

Record chunk_entry := mk_chunk_entry {
  e_chunk_id : string;
  e_chunk_index : Z;
  e_chunk_chars : nat;
  e_preview : list Z;
  e_is_embedded : bool
}.

Record note_group := mk_note_group {
  g_note_id : string;
  g_note_date : Z;
  g_note_type : option string;
  g_caseworker_name : option string;
  g_chunk_count : nat;
  g_chunks : list chunk_entry
}.

(** The [notes[nid]["chunks"].append(...)] entry of a row. *)
Definition entry_of (row : chunk_row) : chunk_entry :=
  mk_chunk_entry (d_chunk_id row) (d_chunk_index row)
    (length (d_chunk_text row))
    (Preview.preview 200 (d_chunk_text row)) (d_is_embedded row).

(** [notes[nid]["chunk_count"] += 1] and the append, on the group of
    [nid]. *)
Definition bump (row : chunk_row) (g : note_group) : note_group :=
  mk_note_group (g_note_id g) (g_note_date g) (g_note_type g)
    (g_caseworker_name g) (S (g_chunk_count g)) (g_chunks g ++ [entry_of row]).

Fixpoint update_group (row : chunk_row) (gs : list note_group)
    : list note_group :=
  match gs with
  | [] => []
  | g :: gs' => if String.eqb (g_note_id g) (d_note_id row) then bump row g :: gs'
                else g :: update_group row gs'
  end.

(** One pass of the loop on the insertion-ordered dict [notes]. *)
Definition add_row (gs : list note_group) (row : chunk_row) : list note_group :=
  let gs' := if existsb (fun g => String.eqb (g_note_id g) (d_note_id row)) gs
             then gs
             else gs ++ [mk_note_group (d_note_id row) (d_note_date row)
                           (d_note_type row) (d_caseworker_name row) 0 []] in
  update_group row gs'.

Inductive response :=
  | NoChunks
  | Grouped (total_notes total_chunks : nat) (groups : list note_group).

(** The response after the case was found. *)
Definition group_rows (all_rows : list chunk_row) : response :=
  match all_rows with
  | [] => NoChunks
  | _ => let gs := fold_left add_row all_rows [] in
         Grouped (length gs) (length all_rows) gs
  end.

End DebugView.

(* ================================================================== *)
(** ** Sample rows and histories *)

Module Samples.

Local Open Scope string_scope.

Definition search_row : VectorSearch.note_chunk :=
  VectorSearch.mk_note_chunk "chunk-1" "note-1" "case-1" 0 "Home visit."
    (Some [1%Q; 0%Q]) (VectorSearch.date_midnight 20000 + 3600000000)
    (Some "Dana") (Some "home_visit").

Definition other_case_row : VectorSearch.note_chunk :=
  VectorSearch.mk_note_chunk "chunk-2" "note-2" "case-2" 0 "Phone call."
    (Some [0%Q; 1%Q]) (VectorSearch.date_midnight 20000)
    None (Some "phone").

Definition flat_distance (u v : list Q) : Q := 0.

Definition turn_pair : Llm.message * Llm.message :=
  (Llm.mk_message "user" "How is the client doing?",
   Llm.mk_message "assistant" "The client is stable.").

Definition two_turns : list (Z * string * string) :=
  [(100, "Any school updates?", "Attendance improved.");
   (200, "Any health concerns?", "None were documented.")].

Definition neon_params : DbUrl.query_dict :=
  [("sslmode", ["require"]); ("application_name", ["casenotes"]);
   ("channel_binding", ["require"])].

Definition debug_rows : list DebugView.chunk_row :=
  [DebugView.mk_chunk_row "note-1" 20000 (Some "home_visit") (Some "Dana")
     "chunk-1" 0 [72; 105] true;
   DebugView.mk_chunk_row "note-2" 20001 None None "chunk-2" 0 [79; 107] false;
   DebugView.mk_chunk_row "note-1" 20000 (Some "home_visit") (Some "Dana")
     "chunk-3" 1 [33] true].

End Samples.

(* ================================================================== *)
(** ** Lemmas on joins and slices *)

Module JoinFacts.

Lemma length_append (a b : string) :
  String.length (a ++ b)%string = (String.length a + String.length b)%nat.
Proof. induction a as [|c a IH]; simpl; [reflexivity | now rewrite IH]. Qed.

Lemma len_append (a b : string) : len (a ++ b)%string = len a + len b.
Proof. unfold len. rewrite length_append. lia. Qed.

Lemma len_nonneg (s : string) : 0 <= len s.
Proof. unfold len. lia. Qed.

Lemma jl_nil : jl [] = 0.
Proof. reflexivity. Qed.

Lemma jl_single (s : string) : jl [s] = len s.
Proof. reflexivity. Qed.

Lemma jl_cons (x : string) (l : list string) :
  l <> [] -> jl (x :: l) = len x + 1 + jl l.
Proof.
  intros Hl. destruct l as [|y l]; [congruence|].
  unfold jl, join. change (String.concat " " (x :: y :: l))
    with (x ++ " " ++ String.concat " " (y :: l))%string.
  rewrite !len_append. change (len " ") with 1. lia.
Qed.

Lemma jl_nonneg (l : list string) : 0 <= jl l.
Proof. unfold jl. apply len_nonneg. Qed.

Lemma jl_app (l1 l2 : list string) :
  l1 <> [] -> l2 <> [] -> jl (l1 ++ l2) = jl l1 + 1 + jl l2.
Proof.
  intros H1 H2. induction l1 as [|x l1 IH]; [congruence|].
  destruct l1 as [|y l1].
  - simpl. rewrite jl_cons by assumption. rewrite jl_single. reflexivity.
  - change ((x :: y :: l1) ++ l2) with (x :: ((y :: l1) ++ l2)).
    rewrite jl_cons by (simpl; congruence).
    rewrite IH by congruence.
    rewrite (jl_cons x (y :: l1)) by congruence. lia.
Qed.

Lemma jl_snoc (l : list string) (s : string) :
  l <> [] -> jl (l ++ [s]) = jl l + 1 + len s.
Proof. intros H. rewrite jl_app by congruence. reflexivity. Qed.

Lemma jl_app_l (l1 l2 : list string) : jl l1 <= jl (l1 ++ l2).
Proof.
  destruct l1 as [|x l1]; [apply jl_nonneg|].
  destruct l2 as [|y l2]; [rewrite app_nil_r; lia|].
  rewrite jl_app by congruence. pose proof (jl_nonneg (y :: l2)). lia.
Qed.

Lemma jl_app_r (l1 l2 : list string) : jl l2 <= jl (l1 ++ l2).
Proof.
  destruct l2 as [|y l2]; [apply jl_nonneg|].
  destruct l1 as [|x l1]; [simpl; lia|].
  rewrite jl_app by congruence. pose proof (jl_nonneg (x :: l1)). lia.
Qed.

Lemma firstn_add {A} (n m : nat) (l : list A) :
  firstn (n + m) l = firstn n l ++ firstn m (skipn n l).
Proof.
  revert l. induction n as [|n IH]; intros l; [reflexivity|].
  destruct l as [|x l]; simpl.
  - now rewrite firstn_nil.
  - now rewrite IH.
Qed.

Lemma slice_app {A} (a b c : nat) (l : list A) :
  (a <= b <= c)%nat -> slice a c l = slice a b l ++ slice b c l.
Proof.
  intros H. unfold slice.
  replace (c - a)%nat with ((b - a) + (c - b))%nat by lia.
  rewrite firstn_add, skipn_skipn.
  replace (b - a + a)%nat with b by lia. reflexivity.
Qed.

Lemma slice_nil {A} (a : nat) (l : list A) : slice a a l = [].
Proof. unfold slice. now rewrite Nat.sub_diag. Qed.

Lemma skipn_nth_cons {A} (n : nat) (l : list A) (d : A) :
  (n < length l)%nat -> skipn n l = nth n l d :: skipn (S n) l.
Proof.
  revert l. induction n as [|n IH]; intros l Hn;
    destruct l as [|x l]; simpl in *; try lia; [reflexivity|].
  apply IH. lia.
Qed.

Lemma slice_one {A} (a : nat) (l : list A) (d : A) :
  (a < length l)%nat -> slice a (S a) l = [nth a l d].
Proof.
  intros H. unfold slice. rewrite (skipn_nth_cons a l d H).
  replace (S a - a)%nat with 1%nat by lia. reflexivity.
Qed.

Lemma slice_cons {A} (a b : nat) (l : list A) (d : A) :
  (a < b <= length l)%nat -> slice a b l = nth a l d :: slice (S a) b l.
Proof.
  intros H. rewrite (slice_app a (S a) b) by lia.
  rewrite (slice_one a l d) by lia. reflexivity.
Qed.

Lemma slice_snoc {A} (a b : nat) (l : list A) (d : A) :
  (a <= b < length l)%nat -> slice a (S b) l = slice a b l ++ [nth b l d].
Proof.
  intros H. rewrite (slice_app a b (S b)) by lia.
  rewrite (slice_one b l d) by lia. reflexivity.
Qed.

Lemma length_slice {A} (a b : nat) (l : list A) :
  (a <= b <= length l)%nat -> length (slice a b l) = (b - a)%nat.
Proof.
  intros H. unfold slice. rewrite length_firstn, length_skipn. lia.
Qed.

Lemma slice_nil_iff {A} (a b : nat) (l : list A) :
  (a <= b <= length l)%nat -> slice a b l = [] <-> a = b.
Proof.
  intros H. split.
  - intros E. apply (f_equal (@length A)) in E.
    rewrite length_slice in E by lia. simpl in E. lia.
  - intros ->. apply slice_nil.
Qed.

(** A sub-slice joins to no more characters than the slice around it. *)
Lemma jl_subslice (a b c d : nat) (l : list string) :
  (a <= b <= c)%nat -> (c <= d)%nat -> jl (slice b c l) <= jl (slice a d l).
Proof.
  intros H1 H2.
  rewrite (slice_app a b d) by lia. rewrite (slice_app b c d) by lia.
  rewrite app_assoc.
  eapply Z.le_trans; [apply (jl_app_r (slice a b l)) | apply jl_app_l].
Qed.

Lemma skipn_slice {A} (n a b : nat) (l : list A) :
  (a + n <= b)%nat -> skipn n (slice a b l) = slice (a + n) b l.
Proof.
  intros H. unfold slice. rewrite skipn_firstn_comm, skipn_skipn.
  replace (n + a)%nat with (a + n)%nat by lia. f_equal. lia.
Qed.

Lemma firstn_slice {A} (n a b : nat) (l : list A) :
  (a + n <= b)%nat -> firstn n (slice a b l) = slice a (a + n) l.
Proof.
  intros H. unfold slice. rewrite firstn_firstn.
  f_equal; lia.
Qed.

Lemma slice_all {A} (l : list A) : slice 0 (length l) l = l.
Proof. unfold slice. rewrite Nat.sub_0_r. apply firstn_all. Qed.

Lemma in_firstn {A} (x : A) (n : nat) (l : list A) :
  In x (firstn n l) -> In x l.
Proof.
  intros H. rewrite <- (firstn_skipn n l). apply in_or_app. left. exact H.
Qed.

Lemma in_skipn {A} (x : A) (n : nat) (l : list A) :
  In x (skipn n l) -> In x l.
Proof.
  intros H. rewrite <- (firstn_skipn n l). apply in_or_app. right. exact H.
Qed.

Lemma in_slice {A} (x : A) (a b : nat) (l : list A) :
  In x (slice a b l) -> In x l.
Proof. unfold slice. intros H. eapply in_skipn, in_firstn, H. Qed.

End JoinFacts.

Import JoinFacts.

(* ================================================================== *)
(** ** Loop invariants of [chunk_text] *)

Module ChunkFacts.
Import Chunking.

Section Loops.

Variables max_chars min_overlap_chars max_overlap_chars : Z.

Lemma fill_spec (rest cs : list string) (j : nat) :
  exists k,
    fill max_chars rest cs (jl cs) j = (cs ++ firstn k rest, (j + k)%nat)
    /\ (k <= length rest)%nat
    /\ (rest <> [] -> cs ++ firstn k rest <> [])
    /\ (forall s r, skipn k rest = s :: r ->
          cs ++ firstn k rest <> []
          /\ jl ((cs ++ firstn k rest) ++ [s]) > max_chars)
    /\ (fits max_chars cs -> fits max_chars (cs ++ firstn k rest)).
Proof.
  revert cs j. induction rest as [|s rest IH]; intros cs j.
  - exists 0%nat. rewrite app_nil_r, Nat.add_0_r. simpl.
    split; [reflexivity|]. split; [lia|]. split; [congruence|].
    split; [intros s r H; discriminate H | tauto].
  - assert (Hc : jl cs + (match cs with [] => 0 | _ => 1 end) + len s
                 = jl (cs ++ [s])).
    { destruct cs as [|x cs].
      - simpl. rewrite jl_single. reflexivity.
      - rewrite jl_snoc by congruence. reflexivity. }
    cbn [fill]. rewrite Hc.
    destruct ((jl (cs ++ [s]) >? max_chars) &&
              negb match cs with [] => true | _ => false end) eqn:E.
    + apply andb_prop in E as [E1 E2].
      assert (Hcs : cs <> []) by (destruct cs; simpl in E2; congruence).
      exists 0%nat. rewrite app_nil_r, Nat.add_0_r. simpl.
      split; [reflexivity|]. split; [lia|]. split; [intros _; exact Hcs|].
      split; [|tauto].
      intros s' r H. injection H as <- <-. split; [exact Hcs|].
      apply Z.gtb_lt in E1. lia.
    + destruct (IH (cs ++ [s]) (S j)) as (k & Hf & Hk & Hne & Hbr & Hfit).
      exists (S k). rewrite Hf. simpl firstn.
      replace (cs ++ s :: firstn k rest) with ((cs ++ [s]) ++ firstn k rest)
        by (rewrite <- app_assoc; reflexivity).
      split; [f_equal; lia|].
      split; [simpl; lia|]. split.
      { intros _. destruct cs; discriminate. }
      split.
      { intros s' r H. simpl in H. exact (Hbr s' r H). }
      intros Hcs. apply Hfit.
      apply andb_false_iff in E as [E|E].
      * left. rewrite Z.gtb_ltb, Z.ltb_ge in E. exact E.
      * right. destruct cs; simpl in E; [reflexivity | discriminate].
Qed.

Lemma fill_first_nonempty (sentences : list string) (start : nat) :
  (start < length sentences)%nat ->
  fst (fill max_chars (skipn start sentences) [] 0 start) <> [].
Proof.
  intros Hs.
  destruct (fill_spec (skipn start sentences) [] start)
    as (k & Hf & _ & Hne & _).
  change 0 with (jl []). rewrite Hf. simpl fst. apply Hne.
  rewrite (skipn_nth_cons start sentences ""%string Hs). discriminate.
Qed.

Lemma build_chunk_spec (sentences : list string) (start : nat) :
  (start < length sentences)%nat ->
  let c := build_chunk max_chars sentences start in
  b_start c = start
  /\ (start < b_end c <= length sentences)%nat
  /\ b_sents c = slice start (b_end c) sentences
  /\ fits max_chars (b_sents c)
  /\ ((b_end c < length sentences)%nat ->
      jl (slice start (S (b_end c)) sentences) > max_chars).
Proof.
  intros Hs c.
  destruct (fill_spec (skipn start sentences) [] start)
    as (k & Hf & Hk & Hne & Hbr & Hfit).
  assert (Hrest : skipn start sentences <> []).
  { rewrite (skipn_nth_cons start sentences ""%string Hs). discriminate. }
  specialize (Hne Hrest). simpl app in Hne, Hbr, Hfit.
  rewrite length_skipn in Hk.
  assert (Hsl : firstn k (skipn start sentences)
                = slice start (start + k) sentences).
  { unfold slice. f_equal. lia. }
  assert (Hk0 : k <> 0%nat) by (intros ->; apply Hne; reflexivity).
  unfold c, build_chunk. change 0 with (jl []). rewrite Hf. simpl app.
  destruct (firstn k (skipn start sentences)) as [|x xs] eqn:Ef;
    [congruence|].
  simpl. split; [reflexivity|]. split; [lia|]. split; [exact Hsl|].
  split.
  { apply Hfit. right. simpl. lia. }
  intros Hlt.
  rewrite (slice_snoc start (start + k) sentences ""%string) by lia.
  rewrite <- Hsl.
  apply (Hbr (nth (start + k) sentences ""%string)
             (skipn (S (start + k)) sentences)).
  rewrite skipn_skipn, Nat.add_comm.
  apply skipn_nth_cons. exact Hlt.
Qed.

Lemma walk_spec (sentences : list string) (start j fuel os : nat) (cnt : Z) :
  (start <= os <= j)%nat -> (j <= length sentences)%nat ->
  (os - start <= fuel)%nat ->
  cnt = jl (slice os j sentences) ->
  (os = j \/ cnt <= max_overlap_chars) ->
  let r := overlap_walk min_overlap_chars max_overlap_chars sentences
             start j fuel os cnt in
  (start <= fst r <= os)%nat
  /\ snd r = jl (slice (fst r) j sentences)
  /\ (fst r = j \/ snd r <= max_overlap_chars).
Proof.
  revert os cnt. induction fuel as [|fuel IH]; intros os cnt Hos Hj Hf Hc Hm r.
  - simpl in r. unfold r. simpl. split; [lia|]. split; assumption.
  - unfold r. cbn [overlap_walk].
    destruct (start <? os)%nat eqn:Hlt.
    2:{ simpl. split; [lia|]. split; assumption. }
    apply Nat.ltb_lt in Hlt.
    set (s := nth (pred os) sentences ""%string).
    set (space := if (os <? j)%nat then 1 else 0).
    assert (Hadd : jl (slice (pred os) j sentences) = cnt + (len s + space)).
    { rewrite (slice_cons (pred os) j sentences ""%string) by lia.
      replace (S (pred os)) with os by lia. fold s. subst cnt space.
      destruct (os <? j)%nat eqn:Hoj.
      - apply Nat.ltb_lt in Hoj. rewrite jl_cons.
        + lia.
        + rewrite slice_nil_iff by lia. lia.
      - apply Nat.ltb_ge in Hoj. replace j with os by lia.
        rewrite slice_nil, jl_single. simpl. lia. }
    destruct (cnt + (len s + space) >? max_overlap_chars) eqn:Hcap.
    { simpl. split; [lia|]. split; assumption. }
    rewrite Z.gtb_ltb, Z.ltb_ge in Hcap.
    destruct (cnt + (len s + space) >=? min_overlap_chars) eqn:Hfloor.
    { simpl. split; [lia|]. split; [symmetry; exact Hadd | right; lia]. }
    assert (Hos' : (start <= pred os <= j)%nat) by lia.
    assert (Hf' : (pred os - start <= fuel)%nat) by lia.
    destruct (IH (pred os) (cnt + (len s + space)) Hos' Hj Hf'
                (eq_sym Hadd) (or_intror Hcap)) as (H1 & H2 & H3).
    split; [lia|]. split; assumption.
Qed.

Lemma next_start_spec (sentences : list string) (start j : nat) :
  (start < j <= length sentences)%nat ->
  let ns := next_start min_overlap_chars max_overlap_chars sentences start j in
  (start < ns <= j)%nat
  /\ (ns = j \/ jl (slice ns j sentences) <= max_overlap_chars).
Proof.
  intros Hj ns.
  destruct (walk_spec sentences start j j j 0) as (H1 & H2 & H3); try lia.
  { rewrite slice_nil. reflexivity. }
  unfold ns, next_start.
  destruct (fst (overlap_walk min_overlap_chars max_overlap_chars sentences
                   start j j j 0) <=? start)%nat eqn:Hle.
  - apply Nat.leb_le in Hle.
    set (os := fst (overlap_walk min_overlap_chars max_overlap_chars
                      sentences start j j j 0)) in *.
    assert (os = start) by lia.
    split; [lia|].
    destruct (Nat.eq_dec (S start) j) as [E|E]; [left; exact E|right].
    destruct H3 as [H3|H3]; [lia|].
    rewrite H2 in H3. subst os.
    rewrite H in H3.
    eapply Z.le_trans; [|exact H3].
    apply (jl_subslice start (S start) j j); lia.
  - apply Nat.leb_gt in Hle. split; [lia|].
    destruct H3 as [H3|H3]; [left; exact H3|right]. rewrite <- H2. exact H3.
Qed.

Local Abbreviation loop := (chunk_loop max_chars min_overlap_chars max_overlap_chars).

(** Shape of one iteration of the outer loop. *)
Lemma chunk_loop_step (sentences : list string) (fuel start : nat) :
  chunk_loop max_chars min_overlap_chars max_overlap_chars sentences
    (S fuel) start =
  if (start <? length sentences)%nat then
    let c := build_chunk max_chars sentences start in
    if (length sentences <=? b_end c)%nat then [c]
    else c :: chunk_loop max_chars min_overlap_chars max_overlap_chars
                sentences fuel
                (next_start min_overlap_chars max_overlap_chars sentences
                   start (b_end c))
  else [].
Proof. reflexivity. Qed.

(** Every chunk of the loop is the one built at its own start. *)
Lemma loop_built (sentences : list string) (fuel start : nat) :
  Forall (fun c => (b_start c < length sentences)%nat
                   /\ c = build_chunk max_chars sentences (b_start c))
    (loop sentences fuel start).
Proof.
  revert start. induction fuel as [|fuel IH]; intros start.
  - constructor.
  - rewrite chunk_loop_step.
    destruct (start <? length sentences)%nat eqn:Hs; [|constructor].
    apply Nat.ltb_lt in Hs.
    destruct (build_chunk_spec sentences start Hs) as (Hb & _).
    assert (Hc : (b_start (build_chunk max_chars sentences start)
                  < length sentences)%nat
                 /\ build_chunk max_chars sentences start
                    = build_chunk max_chars sentences
                        (b_start (build_chunk max_chars sentences start))).
    { rewrite Hb. split; [exact Hs | reflexivity]. }
    simpl. destruct (length sentences <=? _)%nat.
    + constructor; [exact Hc | constructor].
    + constructor; [exact Hc | apply IH].
Qed.

Lemma loop_chunks (sentences : list string) (fuel start : nat) :
  Forall (fun c => (b_start c < b_end c <= length sentences)%nat
                   /\ b_sents c = slice (b_start c) (b_end c) sentences
                   /\ fits max_chars (b_sents c))
    (loop sentences fuel start).
Proof.
  eapply Forall_impl; [|apply loop_built].
  intros c [Hs Hc]. rewrite Hc.
  destruct (build_chunk_spec sentences (b_start c) Hs)
    as (Hb & He & Hsl & Hfit & _).
  rewrite Hb. split; [lia|]. split; assumption.
Qed.

Lemma loop_head (sentences : list string) (fuel start : nat) c cs :
  loop sentences fuel start = c :: cs ->
  c = build_chunk max_chars sentences start.
Proof.
  destruct fuel as [|fuel]; [discriminate|].
  rewrite chunk_loop_step.
  destruct (start <? length sentences)%nat eqn:Hs; [|discriminate].
  simpl. destruct (length sentences <=? _)%nat;
    intros H; injection H as <- _; reflexivity.
Qed.

Lemma loop_adjacent (sentences : list string) (fuel start : nat) :
  adjacent (fun c c' =>
              (b_end c < length sentences)%nat
              /\ c' = build_chunk max_chars sentences
                        (next_start min_overlap_chars max_overlap_chars
                           sentences (b_start c) (b_end c)))
    (loop sentences fuel start).
Proof.
  revert start. induction fuel as [|fuel IH]; intros start; [exact I|].
  rewrite chunk_loop_step.
  destruct (start <? length sentences)%nat eqn:Hs; [|exact I].
  apply Nat.ltb_lt in Hs.
  destruct (build_chunk_spec sentences start Hs) as (Hb & _).
  simpl. destruct (length sentences <=? _)%nat eqn:Hl; [exact I|].
  apply Nat.leb_gt in Hl.
  specialize (IH (next_start min_overlap_chars max_overlap_chars sentences
                    start (b_end (build_chunk max_chars sentences start)))).
  destruct (chunk_loop _ _ _ sentences fuel _) as [|c' cs'] eqn:Hr;
    [exact I|].
  split; [|exact IH].
  split; [exact Hl|]. rewrite Hb. eapply loop_head. exact Hr.
Qed.

(** The chunk started at the overlap of the previous one reaches at least
    as far as the previous one. *)
Lemma build_chunk_reaches (sentences : list string) (start : nat) :
  (start < length sentences)%nat ->
  let e := b_end (build_chunk max_chars sentences start) in
  let ns := next_start min_overlap_chars max_overlap_chars sentences start e in
  (e < length sentences)%nat ->
  (ns <= e <= b_end (build_chunk max_chars sentences ns))%nat.
Proof.
  intros Hs e ns He.
  destruct (build_chunk_spec sentences start Hs)
    as (_ & Hse & Hsl & Hfit & _).
  fold e in Hse, Hsl, Hfit.
  destruct (next_start_spec sentences start e) as (Hns & _); [lia|].
  fold ns in Hns.
  destruct (build_chunk_spec sentences ns) as (_ & Hns' & _ & _ & Hbr');
    [lia|].
  split; [lia|].
  destruct (Nat.eq_dec ns e) as [E|E]; [lia|].
  assert (Hj : jl (slice start e sentences) <= max_chars).
  { rewrite Hsl in Hfit. destruct Hfit as [Hf|Hf]; [exact Hf|].
    rewrite length_slice in Hf by lia. lia. }
  destruct (Nat.le_gt_cases e (b_end (build_chunk max_chars sentences ns)))
    as [Hle|Hgt]; [exact Hle|].
  exfalso.
  specialize (Hbr' ltac:(lia)).
  pose proof (jl_subslice start ns
                (S (b_end (build_chunk max_chars sentences ns))) e
                sentences ltac:(lia) ltac:(lia)).
  lia.
Qed.

Lemma loop_reconstruct (sentences : list string) (fuel start prev : nat) :
  (start < length sentences)%nat ->
  (length sentences - start <= fuel)%nat ->
  (start <= prev <= b_end (build_chunk max_chars sentences start))%nat ->
  concat (new_parts prev (loop sentences fuel start))
  = slice prev (length sentences) sentences.
Proof.
  revert start prev.
  induction fuel as [|fuel IH]; intros start prev Hs Hf Hp; [lia|].
  rewrite chunk_loop_step.
  destruct (start <? length sentences)%nat eqn:Hlt;
    [|apply Nat.ltb_ge in Hlt; lia].
  destruct (build_chunk_spec sentences start Hs)
    as (Hb & Hse & Hsl & _ & _).
  set (c := build_chunk max_chars sentences start) in *.
  assert (Hnew : skipn (prev - b_start c) (b_sents c)
                 = slice prev (b_end c) sentences).
  { rewrite Hb, Hsl, skipn_slice by lia. f_equal. lia. }
  simpl. destruct (length sentences <=? b_end c)%nat eqn:Hl.
  - apply Nat.leb_le in Hl. simpl. rewrite Hnew, app_nil_r.
    f_equal. lia.
  - apply Nat.leb_gt in Hl. simpl. rewrite Hnew.
    destruct (build_chunk_reaches sentences start Hs Hl) as (Hr1 & Hr2).
    destruct (next_start_spec sentences start (b_end c)) as (Hns & _);
      [lia|].
    fold c in Hr1, Hr2.
    rewrite IH; [| lia | lia | exact (conj Hr1 Hr2)].
    symmetry. apply slice_app. lia.
Qed.

Lemma adjacent_weaken (R : built -> Prop) (Q P : built -> built -> Prop)
    (cs : list built) :
  (forall c c', R c -> R c' -> Q c c' -> P c c') ->
  Forall R cs -> adjacent Q cs -> adjacent P cs.
Proof.
  intros HPQ. induction cs as [|c cs IH]; intros HR HQ; [exact I|].
  inversion HR as [|? ? Hc HR']; subst.
  destruct cs as [|c' cs]; [exact I|].
  destruct HQ as [Hq HQ']. inversion HR' as [|? ? Hc' _]; subst.
  split; [exact (HPQ c c' Hc Hc' Hq) | exact (IH HR' HQ')].
Qed.

(** Consecutive chunks: chunk [i+1] starts inside chunk [i], reaches at
    least as far, begins with the sentences [sentences[b_start c' : b_end c]]
    that close chunk [i], and that overlap is empty or within
    [max_overlap_chars]. *)
Lemma loop_pairs (sentences : list string) (fuel start : nat) :
  adjacent (fun c c' =>
      (b_start c < b_start c' <= b_end c)%nat /\ (b_end c <= b_end c')%nat
      /\ firstn (b_end c - b_start c') (b_sents c')
         = slice (b_start c') (b_end c) sentences
      /\ skipn (b_start c' - b_start c) (b_sents c)
         = slice (b_start c') (b_end c) sentences
      /\ (slice (b_start c') (b_end c) sentences = []
          \/ jl (slice (b_start c') (b_end c) sentences)
             <= max_overlap_chars))
    (loop sentences fuel start).
Proof.
  eapply adjacent_weaken; [| apply loop_built | apply loop_adjacent].
  intros c c' [Hs Hc] _ [He Hc'].
  set (st := b_start c) in *.
  destruct (build_chunk_spec sentences st Hs) as (_ & Hse & Hsl & _ & _).
  rewrite <- Hc in Hse, Hsl.
  set (e := b_end c) in *.
  destruct (next_start_spec sentences st e) as (Hns & Hcap); [lia|].
  pose proof (build_chunk_reaches sentences st Hs) as Hr.
  rewrite <- Hc in Hr. fold e in Hr. specialize (Hr He).
  set (ns := next_start min_overlap_chars max_overlap_chars sentences st e)
    in *.
  destruct (build_chunk_spec sentences ns) as (Hb' & Hse' & Hsl' & _ & _);
    [lia|].
  rewrite <- Hc' in Hb', Hse', Hsl', Hr.
  rewrite Hb'.
  split; [lia|]. split; [lia|]. split.
  { rewrite Hsl', firstn_slice by lia. f_equal. lia. }
  split.
  { rewrite Hsl, skipn_slice by lia. f_equal. lia. }
  destruct Hcap as [Hcap|Hcap]; [left; rewrite Hcap; apply slice_nil|].
  right; exact Hcap.
Qed.

End Loops.
End ChunkFacts.

(* ================================================================== *)
(** ** Facts about the query of [find_similar_chunks] *)

Module SearchFacts.
Import VectorSearch.

Lemma insert_by_perm {A} (key : A -> Q) (x : A) (l : list A) :
  Permutation (insert_by key x l) (x :: l).
Proof.
  induction l as [|y l IH]; simpl; [reflexivity|].
  destruct (Qle_bool (key x) (key y)); [reflexivity|].
  rewrite IH. apply perm_swap.
Qed.

Lemma sort_by_perm {A} (key : A -> Q) (l : list A) :
  Permutation (sort_by key l) l.
Proof.
  induction l as [|x l IH]; simpl; [reflexivity|].
  rewrite insert_by_perm. now apply perm_skip.
Qed.


Lemma insert_by_sorted {A} (key : A -> Q) (x : A) (l : list A) :
  Sorted (key_le key) l -> Sorted (key_le key) (insert_by key x l).
Proof.
  induction 1 as [|y l Hs IH Hhd]; simpl.
  - repeat constructor.
  - destruct (Qle_bool (key x) (key y)) eqn:E.
    + apply Qle_bool_iff in E. constructor; [constructor; assumption|].
      constructor. exact E.
    + assert (Hyx : (key y <= key x)%Q).
      { apply Qlt_le_weak, Qnot_le_lt. intros H.
        apply Qle_bool_iff in H. congruence. }
      constructor; [exact IH|].
      destruct l as [|z l]; simpl; [constructor; exact Hyx|].
      inversion Hhd as [|? ? Hyz]; subst.
      destruct (Qle_bool (key x) (key z)); constructor; assumption.
Qed.

Lemma sort_by_sorted {A} (key : A -> Q) (l : list A) :
  Sorted (key_le key) (sort_by key l).
Proof.
  induction l as [|x l IH]; simpl; [constructor|].
  apply insert_by_sorted. exact IH.
Qed.

Lemma sorted_firstn {A} (R : A -> A -> Prop) (n : nat) (l : list A) :
  Sorted R l -> Sorted R (firstn n l).
Proof.
  revert l. induction n as [|n IH]; intros l Hs; simpl; [constructor|].
  destruct l as [|x l]; [constructor|].
  inversion Hs as [|? ? Hs' Hhd]; subst. constructor; [apply IH; exact Hs'|].
  destruct l as [|y l]; destruct n; simpl; try constructor.
  inversion Hhd; assumption.
Qed.

Lemma sorted_map {A B} (R : A -> A -> Prop) (R' : B -> B -> Prop)
    (f : A -> B) (l : list A) :
  (forall x y, R x y -> R' (f x) (f y)) ->
  Sorted R l -> Sorted R' (map f l).
Proof.
  intros HR. induction 1 as [|x l Hs IH Hhd]; simpl; constructor; [exact IH|].
  destruct Hhd; simpl; constructor. apply HR. assumption.
Qed.

Lemma scanned_incl (sc : scan) (table : list note_chunk) (r : note_chunk) :
  In r (scanned sc table) -> In r table.
Proof.
  destruct sc as [|probed]; simpl; [intros H; exact H|].
  intros H. apply filter_In in H. exact (proj1 H).
Qed.

Lemma filter_filter_length {A} (f g : A -> bool) (l : list A) :
  (length (filter f (filter g l)) <= length (filter f l))%nat.
Proof.
  induction l as [|x l IH]; simpl; [lia|].
  destruct (g x); simpl; destruct (f x); simpl; lia.
Qed.

Lemma scanned_filter_length (sc : scan) (f : note_chunk -> bool)
    (table : list note_chunk) :
  (length (filter f (scanned sc table)) <= length (filter f table))%nat.
Proof.
  destruct sc as [|probed]; simpl; [lia|]. apply filter_filter_length.
Qed.

End SearchFacts.

(* ================================================================== *)
(** ** Facts about the segmenter, [chunk_text], history and embeddings *)

Module PipelineFacts.
Import Chunking ChunkFacts Segmenter Llm Embedding.

Lemma lstrip_all_space (cs : list ascii) :
  forallb is_space cs = true -> lstrip_list cs = [].
Proof.
  induction cs as [|c cs IH]; simpl; [reflexivity|].
  intros H. apply andb_prop in H as [H1 H2]. rewrite H1. apply IH, H2.
Qed.

Lemma seg_go_nil (cs cur : list ascii) :
  seg_go cs cur = [] -> cur = [] /\ forallb is_space cs = true.
Proof.
  revert cur. induction cs as [|c cs IH]; intros cur H; simpl in H.
  - destruct cur; [split; reflexivity | discriminate].
  - destruct (is_space c) eqn:Hc.
    + destruct cur as [|d cur].
      * destruct (IH [] H) as [_ Hall]. simpl. rewrite Hc, Hall.
        split; reflexivity.
      * destruct (is_terminal d); [discriminate|].
        destruct (IH _ H) as [E _]. discriminate.
    + destruct (IH _ H) as [E _]. discriminate.
Qed.

(** The segmenter only returns no sentence for blank text. *)
Lemma split_sentences_blank (t : string) :
  split_sentences t = [] -> strip t = ""%string.
Proof.
  unfold split_sentences. intros H.
  apply map_eq_nil in H. apply seg_go_nil in H as [_ Hall].
  unfold strip. rewrite (lstrip_all_space _ Hall). reflexivity.
Qed.

Lemma chunk_text_long (sent_tokenize : string -> list string)
    (mc mn mx : Z) (text : string) :
  sent_tokenize text <> [] -> len text > mc ->
  chunk_text sent_tokenize mc mn mx text
  = map (fun c => join (b_sents c)) (chunks_of mc mn mx (sent_tokenize text)).
Proof.
  intros Hne Hlen. unfold chunk_text.
  destruct (sent_tokenize text) as [|s ss]; [congruence|].
  destruct (len text <=? mc) eqn:E; [apply Z.leb_le in E; lia|].
  reflexivity.
Qed.

Lemma chunk_text_short (sent_tokenize : string -> list string)
    (mc mn mx : Z) (text : string) :
  sent_tokenize text <> [] -> len text <= mc ->
  chunk_text sent_tokenize mc mn mx text = [text].
Proof.
  intros Hne Hlen. unfold chunk_text.
  destruct (sent_tokenize text) as [|s ss]; [congruence|].
  destruct (len text <=? mc) eqn:E; [reflexivity|].
  apply Z.leb_gt in E. lia.
Qed.

Lemma chunks_of_nonempty (mc mn mx : Z) (sentences : list string) :
  sentences <> [] -> chunks_of mc mn mx sentences <> [].
Proof.
  intros Hne. unfold chunks_of.
  destruct sentences as [|s ss]; [congruence|].
  cbn [length]. rewrite chunk_loop_step. simpl.
  match goal with |- context [if ?b then _ else _] => destruct b end;
    discriminate.
Qed.

Lemma chunks_of_reconstruct (mc mn mx : Z) (sentences : list string) :
  concat (new_parts 0 (chunks_of mc mn mx sentences)) = sentences.
Proof.
  destruct sentences as [|s ss] eqn:Es; [reflexivity|].
  rewrite <- Es. unfold chunks_of.
  rewrite (loop_reconstruct mc mn mx sentences (length sentences) 0 0).
  - apply slice_all.
  - subst; simpl; lia.
  - lia.
  - destruct (build_chunk_spec mc sentences 0) as (_ & H & _);
      [subst; simpl; lia | lia].
Qed.

Lemma skipn_pairs (k : nat) (ps : list (message * message)) :
  skipn (2 * k) (concat (map pair_messages ps))
  = concat (map pair_messages (skipn k ps)).
Proof.
  revert ps. induction k as [|k IH]; intros ps; [reflexivity|].
  destruct ps as [|p ps]; simpl; [reflexivity|].
  replace (k + S (k + 0))%nat with (S (2 * k)) by lia. simpl.
  apply IH.
Qed.

Lemma length_pairs (ps : list (message * message)) :
  length (concat (map pair_messages ps)) = (2 * length ps)%nat.
Proof. induction ps as [|p ps IH]; simpl; [reflexivity|]. rewrite IH. lia. Qed.

Lemma history_messages_long (prior : list message) :
  (20 < length prior)%nat ->
  history_messages prior = skipn (length prior - 20) prior.
Proof.
  intros H. unfold history_messages, py_slice_from, MAX_HISTORY_TURNS.
  simpl (- (10 * 2)). change (-20 <? 0) with true. cbv iota.
  f_equal. lia.
Qed.

End PipelineFacts.

(* ================================================================== *)
(** ** Properties of the chunker *)

Import Chunking ChunkFacts Segmenter PipelineFacts Samples.
Open Scope string_scope.

(** C1 (amended).  When [chunk_text] splits a text (non-empty segmentation,
    more than [max_chars] characters), its chunks are the joins of the
    chunks built by the loop, and for every two consecutive chunks [c] and
    [c']: [c'] starts after [c] starts and no later than [c] ends (no
    sentence is skipped), [c'] ends no earlier than [c]; the overlap
    [sentences[b_start c' : b_end c]] is exactly the sentences that close
    chunk [i] and exactly the sentences that open chunk [i+1]; and it is
    empty or at most [max_overlap_chars] characters long when joined.  The
    [min_overlap_chars] floor is not guaranteed. *)
Theorem chunk_overlap_within_ceiling (sent_tokenize : string -> list string)
    (max_chars min_overlap_chars max_overlap_chars : Z) (text : string) :
  sent_tokenize text <> [] -> len text > max_chars ->
  let sentences := sent_tokenize text in
  let cs := chunks_of max_chars min_overlap_chars max_overlap_chars sentences in
  chunk_text sent_tokenize max_chars min_overlap_chars max_overlap_chars text
  = map (fun c => join (b_sents c)) cs
  /\ adjacent (fun c c' =>
       (b_start c < b_start c' <= b_end c)%nat /\ (b_end c <= b_end c')%nat
       /\ skipn (b_start c' - b_start c) (b_sents c)
          = slice (b_start c') (b_end c) sentences
       /\ firstn (b_end c - b_start c') (b_sents c')
          = slice (b_start c') (b_end c) sentences
       /\ (slice (b_start c') (b_end c) sentences = []
           \/ jl (slice (b_start c') (b_end c) sentences)
              <= max_overlap_chars)) cs.
Proof.
  intros Hne Hlen sentences cs.
  split; [apply chunk_text_long; assumption|].
  eapply adjacent_weaken;
    [| apply (Forall_forall (fun _ => True)); intros; exact I
     | apply (loop_pairs max_chars min_overlap_chars max_overlap_chars)].
  intros c c' _ _ (Hs & He & Hf & Hk & Hcap).
  split; [exact Hs|]. split; [exact He|]. split; [exact Hk|].
  split; [exact Hf|exact Hcap].
Qed.

Lemma chunk_overlap_within_ceiling_witness :
  split_sentences "aa. bbbbb. ccccccc." <> []
  /\ len "aa. bbbbb. ccccccc." > 10
  /\ chunk_text split_sentences 10 3 5 "aa. bbbbb. ccccccc."
     = ["aa. bbbbb."; "ccccccc."].
Proof.
  assert (H1 : split_sentences "aa. bbbbb. ccccccc." <> []) by discriminate.
  assert (H2 : len "aa. bbbbb. ccccccc." > 10) by reflexivity.
  split; [exact H1|]. split; [exact H2|].
  destruct (chunk_overlap_within_ceiling split_sentences 10 3 5
              "aa. bbbbb. ccccccc." H1 H2) as [E _].
  rewrite E. reflexivity.
Defined.

(** C1 fails: with [min_overlap_chars = 3 < max_overlap_chars = 5 <
    max_chars = 10], the first chunk has two sentences, the second sentence
    alone passes [max_overlap_chars], so the two chunks share no text,
    although 8 characters of input remain after the first chunk. *)
Lemma chunk_overlap_floor_violated :
  let text := "aa. bbbbb. ccccccc."%string in
  let sentences := split_sentences text in
  (3 < 5 < 10)
  /\ chunk_text split_sentences 10 3 5 text = ["aa. bbbbb."; "ccccccc."]
  /\ ~ adjacent (fun c c' =>
         ~ (length (b_sents c) = 1%nat /\ jl (b_sents c) > 10) ->
         (3 <= jl (slice (b_start c') (b_end c) sentences) <= 5)
         \/ jl (skipn (b_end c) sentences) < 3)
       (chunks_of 10 3 5 sentences).
Proof.
  intros text sentences.
  split; [lia|]. split; [reflexivity|].
  vm_compute. intros [H _].
  destruct H as [[H _]|H].
  - intros [E _]. discriminate E.
  - exact (H eq_refl).
  - discriminate H.
Qed.


(** C2 (amended).  For a text with a non-empty segmentation: if it has at
    most [max_chars] characters, the single chunk is the text itself;
    otherwise the chunks are the joins of the loop's chunks, each chunk
    begins with the sentences that close its predecessor (the inherited
    overlap), and dropping that overlap from every chunk and concatenating
    the rest in order gives the sentence sequence, each sentence exactly
    once, hence also its join by single spaces. *)
Theorem chunk_reconstruction (sent_tokenize : string -> list string)
    (max_chars min_overlap_chars max_overlap_chars : Z) (text : string) :
  sent_tokenize text <> [] ->
  let sentences := sent_tokenize text in
  let cs := chunks_of max_chars min_overlap_chars max_overlap_chars sentences in
  (len text <= max_chars ->
   chunk_text sent_tokenize max_chars min_overlap_chars max_overlap_chars text
   = [text])
  /\ (len text > max_chars ->
      chunk_text sent_tokenize max_chars min_overlap_chars max_overlap_chars
        text = map (fun c => join (b_sents c)) cs
      /\ adjacent (fun c c' =>
           firstn (b_end c - b_start c') (b_sents c')
           = skipn (b_start c' - b_start c) (b_sents c)) cs
      /\ concat (new_parts 0 cs) = sentences
      /\ join (concat (new_parts 0 cs)) = join sentences).
Proof.
  intros Hne sentences cs. split.
  - intros Hlen. apply chunk_text_short; assumption.
  - intros Hlen. split; [apply chunk_text_long; assumption|].
    split.
    + eapply adjacent_weaken;
        [| apply (Forall_forall (fun _ => True)); intros; exact I
         | apply (loop_pairs max_chars min_overlap_chars max_overlap_chars)].
      intros c c' _ _ (_ & _ & Hf & Hs & _). rewrite Hf, Hs. reflexivity.
    + assert (H : concat (new_parts 0 cs) = sentences)
        by apply chunks_of_reconstruct.
      split; [exact H | rewrite H; reflexivity].
Qed.

Lemma chunk_reconstruction_witness :
  split_sentences "aa. bb. cccccccccc." <> []
  /\ chunk_text split_sentences 10 2 5 "aa. bb. cccccccccc."
     = ["aa. bb."; "bb."; "cccccccccc."]
  /\ concat (new_parts 0 (chunks_of 10 2 5
                            (split_sentences "aa. bb. cccccccccc.")))
     = ["aa."; "bb."; "cccccccccc."].
Proof.
  assert (H1 : split_sentences "aa. bb. cccccccccc." <> []) by discriminate.
  destruct (chunk_reconstruction split_sentences 10 2 5
              "aa. bb. cccccccccc." H1) as [_ H].
  destruct (H ltac:(reflexivity)) as (E & _ & R & _).
  split; [exact H1|]. split; [rewrite E; reflexivity|].
  rewrite R. reflexivity.
Defined.

(** C2 fails for a short text: a note of two sentences separated by a line
    break fits in [max_chars], is returned verbatim, and differs from its
    sentences joined by single spaces. *)
Lemma short_text_not_rejoined :
  let text := ("A." ++ String (ascii_of_nat 10) "B.")%string in
  split_sentences text = ["A."; "B."]
  /\ chunk_text split_sentences 1200 200 400 text = [text]
  /\ text <> join (split_sentences text).
Proof.
  intros text. split; [reflexivity|]. split; [reflexivity|].
  vm_compute. discriminate.
Qed.

(** C3.  Given a segmenter that returns no sentence only for blank text,
    every chunk of [chunk_text] has at most [max_chars] characters, or is
    exactly one sentence of the segmentation that alone is longer than
    [max_chars]. *)
Theorem chunk_text_length_bound (sent_tokenize : string -> list string)
    (max_chars min_overlap_chars max_overlap_chars : Z) (text : string) :
  (forall t, sent_tokenize t = [] -> strip t = "") ->
  Forall (fun chunk => len chunk <= max_chars
                       \/ (In chunk (sent_tokenize text)
                           /\ len chunk > max_chars))
    (chunk_text sent_tokenize max_chars min_overlap_chars max_overlap_chars
       text).
Proof.
  intros Hseg.
  destruct (sent_tokenize text) as [|s ss] eqn:Es.
  - unfold chunk_text. rewrite Es, (Hseg text Es). constructor.
  - assert (Hne : sent_tokenize text <> []) by congruence.
    destruct (Z_le_gt_dec (len text) max_chars) as [Hl|Hl].
    + rewrite chunk_text_short by assumption.
      constructor; [left; exact Hl | constructor].
    + rewrite chunk_text_long by assumption. rewrite <- Es.
      apply Forall_map.
      eapply Forall_impl; [|apply loop_chunks].
      intros c (Hse & Hsl & Hfit).
      destruct Hfit as [Hfit|Hfit]; [left; exact Hfit|].
      destruct (b_sents c) as [|x [|y r]] eqn:Eb.
      * symmetry in Hsl. apply slice_nil_iff in Hsl; lia.
      * change (join [x]) with x.
        destruct (Z_le_gt_dec (len x) max_chars) as [Hx|Hx];
          [left; exact Hx|right].
        split; [|exact Hx].
        apply (in_slice x (b_start c) (b_end c)). rewrite <- Hsl.
        left; reflexivity.
      * simpl in Hfit. lia.
Qed.

Lemma chunk_text_length_bound_witness :
  (forall t, split_sentences t = [] -> strip t = "")
  /\ Forall (fun chunk => len chunk <= 10
                          \/ (In chunk (split_sentences
                                          "aaaaaaaaaaaaaaa. bb. cc.")
                              /\ len chunk > 10))
       (chunk_text split_sentences 10 2 5 "aaaaaaaaaaaaaaa. bb. cc.").
Proof.
  split; [exact split_sentences_blank|].
  apply (chunk_text_length_bound split_sentences 10 2 5
           "aaaaaaaaaaaaaaa. bb. cc." split_sentences_blank).
Defined.

(** C4 (amended).  [chunk_text] checks none of its parameters: for every
    [max_chars], [min_overlap_chars] and [max_overlap_chars] (also with
    [min_overlap_chars >= max_chars]) and every text with a non-empty
    segmentation, it runs to the end and returns a non-empty list of
    chunks. *)
Theorem chunk_text_no_parameter_check (sent_tokenize : string -> list string)
    (max_chars min_overlap_chars max_overlap_chars : Z) (text : string) :
  sent_tokenize text <> [] ->
  chunk_text sent_tokenize max_chars min_overlap_chars max_overlap_chars text
  <> [].
Proof.
  intros Hne.
  destruct (Z_le_gt_dec (len text) max_chars) as [Hl|Hl].
  - rewrite chunk_text_short by assumption. discriminate.
  - rewrite chunk_text_long by assumption.
    intros H. apply map_eq_nil in H. revert H.
    apply chunks_of_nonempty. exact Hne.
Qed.

Lemma chunk_text_no_parameter_check_witness :
  split_sentences "aaaa. bbbb. cccc. dddd." <> []
  /\ chunk_text split_sentences 10 20 30 "aaaa. bbbb. cccc. dddd." <> [].
Proof.
  assert (H : split_sentences "aaaa. bbbb. cccc. dddd." <> [])
    by discriminate.
  split; [exact H|].
  exact (chunk_text_no_parameter_check split_sentences 10 20 30
           "aaaa. bbbb. cccc. dddd." H).
Defined.

(** C4 fails: with [min_overlap_chars = 20 >= max_chars = 10] the call is
    not rejected; it returns four chunks. *)
Lemma chunk_text_accepts_min_overlap_ge_max_chars :
  20 >= 10
  /\ chunk_text split_sentences 10 20 30 "aaaa. bbbb. cccc. dddd."
     = ["aaaa."; "bbbb."; "cccc."; "dddd."].
Proof. split; [lia | reflexivity]. Qed.

(** C5.  Given a segmenter that returns no sentence only for blank text,
    [chunk_text] returns no chunk when the segmentation is empty. *)
Theorem chunk_text_empty_segmentation (sent_tokenize : string -> list string)
    (max_chars min_overlap_chars max_overlap_chars : Z) (text : string) :
  (forall t, sent_tokenize t = [] -> strip t = "") ->
  sent_tokenize text = [] ->
  chunk_text sent_tokenize max_chars min_overlap_chars max_overlap_chars text
  = [].
Proof.
  intros Hseg Hnil. unfold chunk_text. rewrite Hnil, (Hseg text Hnil).
  reflexivity.
Qed.

Lemma chunk_text_empty_segmentation_witness :
  split_sentences "   " = []
  /\ chunk_text split_sentences 1200 200 400 "   " = [].
Proof.
  assert (H : split_sentences "   " = []) by reflexivity.
  split; [exact H|].
  exact (chunk_text_empty_segmentation split_sentences 1200 200 400 "   "
           split_sentences_blank H).
Defined.

(** C10.  Whenever the outer loop runs ([chunk_start_idx <
    len(sentences)]), the forward fill admits at least the sentence at
    [chunk_start_idx], so the [if not chunk_sents] branch is never taken;
    and every chunk built holds at least one sentence, namely the whole
    sentences [sentences[b_start c : b_end c]]. *)
Theorem fill_admits_first_sentence
    (max_chars min_overlap_chars max_overlap_chars : Z)
    (sentences : list string) (chunk_start_idx : nat) :
  (chunk_start_idx < length sentences)%nat ->
  fst (fill max_chars (skipn chunk_start_idx sentences) [] 0 chunk_start_idx)
  <> []
  /\ Forall (fun c => b_sents c <> []
                      /\ b_sents c = slice (b_start c) (b_end c) sentences)
       (chunks_of max_chars min_overlap_chars max_overlap_chars sentences).
Proof.
  intros Hs. split; [apply fill_first_nonempty; exact Hs|].
  unfold chunks_of. eapply Forall_impl; [|apply loop_chunks].
  intros c (Hse & Hsl & _). split; [|exact Hsl].
  rewrite Hsl. intros H. apply slice_nil_iff in H; lia.
Qed.

Lemma fill_admits_first_sentence_witness :
  (1 < length ["aaaaaaaaaaaaaaaaaaaa."; "bb."; "cc."])%nat
  /\ fst (fill 10 (skipn 1 ["aaaaaaaaaaaaaaaaaaaa."; "bb."; "cc."]) [] 0 1)
     = ["bb."; "cc."].
Proof.
  assert (H : (1 < length ["aaaaaaaaaaaaaaaaaaaa."; "bb."; "cc."])%nat)
    by (simpl; lia).
  split; [exact H|].
  destruct (fill_admits_first_sentence 10 2 5
              ["aaaaaaaaaaaaaaaaaaaa."; "bb."; "cc."] 1 H) as [_ _].
  reflexivity.
Defined.

(** C6.  Every row returned by [find_similar_chunks] comes from a row of
    [note_chunks] whose [case_id] is the requested one, whose [created_at]
    lies in [[start_date 00:00, end_date 23:59:59]] (both ends included),
    and whose embedding is not [NULL]; the row is returned as
    [to_retrieved] builds it from that table row. *)
Theorem find_similar_chunks_scoped (cosine_distance : list Q -> list Q -> Q)
    (sc : VectorSearch.scan) (table : list VectorSearch.note_chunk)
    (top_k : nat) (case_id' : string) (start_date end_date : Z)
    (query_vector : list Q) (r : VectorSearch.retrieved) :
  In r (VectorSearch.find_similar_chunks cosine_distance sc table top_k
          case_id' start_date end_date query_vector) ->
  exists row,
    In row table
    /\ r = VectorSearch.to_retrieved cosine_distance query_vector row
    /\ VectorSearch.case_id row = case_id'
    /\ VectorSearch.date_midnight start_date <= VectorSearch.created_at row
    /\ VectorSearch.created_at row <= VectorSearch.end_of_day end_date
    /\ VectorSearch.embedding row <> None.
Proof.
  unfold VectorSearch.find_similar_chunks. intros H.
  apply in_map_iff in H. destruct H as [row [Hr Hin]].
  apply JoinFacts.in_firstn in Hin.
  apply (Permutation_in _ (SearchFacts.sort_by_perm _ _)) in Hin.
  apply filter_In in Hin. destruct Hin as [Hin Hm].
  exists row. split; [exact (SearchFacts.scanned_incl _ _ _ Hin)|].
  split; [symmetry; exact Hr|].
  unfold VectorSearch.row_matches in Hm.
  apply andb_prop in Hm. destruct Hm as [Hm He].
  apply andb_prop in Hm. destruct Hm as [Hm Hend].
  apply andb_prop in Hm. destruct Hm as [Hc Hst].
  apply String.eqb_eq in Hc. apply Z.leb_le in Hst. apply Z.leb_le in Hend.
  repeat split; try assumption.
  destruct (VectorSearch.embedding row); [discriminate | discriminate He].
Qed.




Lemma find_similar_chunks_scoped_witness :
  In (VectorSearch.to_retrieved flat_distance [1%Q; 0%Q] search_row)
     (VectorSearch.find_similar_chunks flat_distance VectorSearch.SeqScan
        [other_case_row; search_row] VectorSearch.TOP_K "case-1" 20000 20000
        [1%Q; 0%Q])
  /\ exists row,
       In row [other_case_row; search_row]
       /\ VectorSearch.to_retrieved flat_distance [1%Q; 0%Q] search_row
          = VectorSearch.to_retrieved flat_distance [1%Q; 0%Q] row
       /\ VectorSearch.case_id row = "case-1"
       /\ VectorSearch.date_midnight 20000 <= VectorSearch.created_at row
       /\ VectorSearch.created_at row <= VectorSearch.end_of_day 20000
       /\ VectorSearch.embedding row <> None.
Proof.
  assert (H : In (VectorSearch.to_retrieved flat_distance [1%Q; 0%Q] search_row)
     (VectorSearch.find_similar_chunks flat_distance VectorSearch.SeqScan
        [other_case_row; search_row] VectorSearch.TOP_K "case-1" 20000 20000
        [1%Q; 0%Q])) by (vm_compute; left; reflexivity).
  split; [exact H|].
  exact (find_similar_chunks_scoped flat_distance VectorSearch.SeqScan
           [other_case_row; search_row] VectorSearch.TOP_K "case-1" 20000 20000
           [1%Q; 0%Q] _ H).
Defined.

(** C7 (amended).  The length of the result is [min(top_k, m)] where [m]
    counts the matching rows among the rows the scan reads: with a
    sequential scan that is every matching row of the table, so the length
    is [min(top_k, available matches)]; in general (an [ivfflat] index
    scan) it is at most that.  The similarities of the result are
    non-increasing. *)
Theorem find_similar_chunks_size_order
    (cosine_distance : list Q -> list Q -> Q)
    (sc : VectorSearch.scan) (table : list VectorSearch.note_chunk)
    (top_k : nat) (case_id' : string) (start_date end_date : Z)
    (query_vector : list Q) :
  let found := VectorSearch.find_similar_chunks cosine_distance sc table top_k
                 case_id' start_date end_date query_vector in
  let matches := VectorSearch.row_matches case_id' start_date end_date in
  length found
  = Nat.min top_k (length (filter matches (VectorSearch.scanned sc table)))
  /\ length (VectorSearch.find_similar_chunks cosine_distance
               VectorSearch.SeqScan table top_k case_id' start_date end_date
               query_vector)
     = Nat.min top_k (length (filter matches table))
  /\ (length found <= Nat.min top_k (length (filter matches table)))%nat
  /\ Sorted (fun a b => (VectorSearch.r_similarity b
                         <= VectorSearch.r_similarity a)%Q) found.
Proof.
  intros found matches.
  assert (Hlen : forall sc',
    length (VectorSearch.find_similar_chunks cosine_distance sc' table top_k
              case_id' start_date end_date query_vector)
    = Nat.min top_k (length (filter matches (VectorSearch.scanned sc' table)))).
  { intros sc'. unfold VectorSearch.find_similar_chunks.
    rewrite length_map, length_firstn.
    rewrite (Permutation_length (SearchFacts.sort_by_perm _ _)).
    reflexivity. }
  split; [apply Hlen|]. split; [apply Hlen|]. split.
  - unfold found. rewrite Hlen. apply Nat.min_le_compat_l.
    apply SearchFacts.scanned_filter_length.
  - unfold found, VectorSearch.find_similar_chunks.
    apply (SearchFacts.sorted_map
             (VectorSearch.key_le (VectorSearch.distance cosine_distance
                                     query_vector))).
    + intros x y Hxy. unfold VectorSearch.key_le in Hxy. simpl.
      unfold Qminus. apply Qplus_le_compat; [apply Qle_refl|].
      apply Qopp_le_compat. exact Hxy.
    + apply SearchFacts.sorted_firstn, SearchFacts.sort_by_sorted.
Qed.

(** C7 fails for the approximate index: an [ivfflat] scan that probes no
    list holding the one matching row returns nothing, while
    [min(TOP_K, available matches) = 1]. *)
Lemma ivfflat_scan_misses_matches :
  length (VectorSearch.find_similar_chunks flat_distance
            (VectorSearch.IvfflatScan (fun _ => false)) [search_row]
            VectorSearch.TOP_K "case-1" 20000 20000 [1%Q; 0%Q]) = 0%nat
  /\ Nat.min VectorSearch.TOP_K
       (length (filter (VectorSearch.row_matches "case-1" 20000 20000)
                  [search_row])) = 1%nat.
Proof. split; vm_compute; reflexivity. Qed.

(** C8.  When the stored history is a sequence of turn-pairs (a user
    message followed by its assistant reply, as [routes/chat.py] commits
    them) longer than [2 * MAX_HISTORY_TURNS] messages, the history sent to
    Gemini is exactly the last [MAX_HISTORY_TURNS] turn-pairs, and the
    request is that history followed by the user message. *)
Theorem history_keeps_last_turn_pairs
    (pairs : list (Llm.message * Llm.message)) (full_user_message : string) :
  (length (concat (map Llm.pair_messages pairs))
   > 2 * Z.to_nat Llm.MAX_HISTORY_TURNS)%nat ->
  let kept := skipn (length pairs - Z.to_nat Llm.MAX_HISTORY_TURNS) pairs in
  Llm.history_messages (concat (map Llm.pair_messages pairs))
  = concat (map Llm.pair_messages kept)
  /\ length kept = Z.to_nat Llm.MAX_HISTORY_TURNS
  /\ Llm.generate_contents full_user_message
       (concat (map Llm.pair_messages pairs))
     = (map Llm.to_history (concat (map Llm.pair_messages kept))
        ++ [Llm.mk_content "user" [full_user_message]])%list.
Proof.
  intros Hgt kept.
  change (Z.to_nat Llm.MAX_HISTORY_TURNS) with 10%nat in *.
  rewrite length_pairs in Hgt.
  assert (Hh : Llm.history_messages (concat (map Llm.pair_messages pairs))
               = concat (map Llm.pair_messages kept)).
  { rewrite history_messages_long by (rewrite length_pairs; lia).
    rewrite length_pairs.
    replace (2 * length pairs - 20)%nat with (2 * (length pairs - 10))%nat
      by lia.
    apply skipn_pairs. }
  split; [exact Hh|]. split.
  - unfold kept. rewrite length_skipn. lia.
  - unfold Llm.generate_contents. rewrite Hh. reflexivity.
Qed.


Lemma history_keeps_last_turn_pairs_witness :
  (length (concat (map Llm.pair_messages (repeat turn_pair 11)))
   > 2 * Z.to_nat Llm.MAX_HISTORY_TURNS)%nat
  /\ length (Llm.generate_contents "Any update?"
               (concat (map Llm.pair_messages (repeat turn_pair 11)))) = 21%nat.
Proof.
  assert (H : (length (concat (map Llm.pair_messages (repeat turn_pair 11)))
               > 2 * Z.to_nat Llm.MAX_HISTORY_TURNS)%nat)
    by (vm_compute; lia).
  split; [exact H|].
  destruct (history_keeps_last_turn_pairs (repeat turn_pair 11) "Any update?" H)
    as [_ [_ Hg]].
  rewrite Hg. vm_compute. reflexivity.
Defined.

(** C9 (code bug).  Whatever the Inference API would answer,
    [embed_query q] and [embed_documents texts] send no request and raise
    [AttributeError]: [_call_hf_api] reads [settings.HF_TOKEN], which
    [Settings] does not declare.  No query and no chunk text is ever
    embedded. *)
Theorem embedding_calls_raise_attribute_error
    (respond : nat -> list string -> Embedding.hf_response)
    (q : string) (texts : list string) :
  Embedding.embed_query respond q = ([], Embedding.Raised "AttributeError")
  /\ Embedding.embed_documents respond texts
     = ([], Embedding.Raised "AttributeError").
Proof.
  assert (H : Embedding.has_setting "HF_TOKEN" = false) by reflexivity.
  unfold Embedding.embed_query, Embedding.embed_documents,
    Embedding.call_hf_api.
  rewrite H. split; reflexivity.
Qed.

(* ================================================================== *)
(** ** Lemmas for the further properties *)

Module CountFacts.
Import Chunking ChunkFacts.

Lemma adjacent_increasing_length (f : built -> nat) (n : nat) (c : built)
    (cs : list built) :
  adjacent (fun c c' => (f c < f c')%nat) (c :: cs) ->
  Forall (fun c => (f c < n)%nat) (c :: cs) ->
  (length (c :: cs) <= n - f c)%nat.
Proof.
  revert c. induction cs as [|c' cs IH]; intros c Hadj Hf.
  - inversion Hf; subst. simpl. lia.
  - destruct Hadj as [Hlt Hadj']. inversion Hf as [|? ? Hc Hf']; subst.
    specialize (IH c' Hadj' Hf'). simpl in *. lia.
Qed.

Lemma chunks_of_count (mc mn mx : Z) (sentences : list string) :
  (length (chunks_of mc mn mx sentences) <= length sentences)%nat.
Proof.
  unfold chunks_of.
  assert (Hadj := loop_pairs mc mn mx sentences (length sentences) 0).
  assert (Hb := loop_built mc mn mx sentences (length sentences) 0).
  destruct (chunk_loop mc mn mx sentences (length sentences) 0) as [|c cs];
    [simpl; lia|].
  eapply Nat.le_trans;
    [apply (adjacent_increasing_length b_start (length sentences)) | lia].
  - eapply (adjacent_weaken (fun _ => True)); [| |exact Hadj].
    + intros x y _ _ H. destruct H as [[H _] _]. exact H.
    + apply Forall_forall. intros; exact I.
  - eapply Forall_impl; [|exact Hb]. intros x [H _]. exact H.
Qed.

End CountFacts.

Module StringFacts.

Lemma sapp_assoc (a b c : string) : (a ++ b ++ c = (a ++ b) ++ c)%string.
Proof. induction a as [|x a IH]; simpl; [reflexivity|]. rewrite IH. reflexivity. Qed.

Lemma sapp_nil_r (a : string) : (a ++ "")%string = a.
Proof. induction a as [|x a IH]; simpl; [reflexivity|]. rewrite IH. reflexivity. Qed.

Lemma concat_in (sep x : string) (l : list string) :
  In x l -> exists pre post, String.concat sep l = (pre ++ x ++ post)%string.
Proof.
  induction l as [|y l IH]; intros H; [destruct H|].
  destruct H as [<-|H].
  - destruct l as [|z l].
    + exists ""%string, ""%string. simpl. rewrite sapp_nil_r. reflexivity.
    + exists ""%string, (sep ++ String.concat sep (z :: l))%string.
      reflexivity.
  - destruct (IH H) as (pre & post & E).
    destruct l as [|z l]; [destruct H|].
    exists (y ++ sep ++ pre)%string, post.
    change (String.concat sep (y :: z :: l))
      with (y ++ sep ++ String.concat sep (z :: l))%string.
    rewrite E. rewrite <- !sapp_assoc. reflexivity.
Qed.

End StringFacts.

Module TranscriptFacts.
Import Transcript.

Lemma increasing_cons (t : Z) (ts : list Z) :
  increasing (t :: ts) = true ->
  Forall (fun u => t < u) ts /\ increasing ts = true.
Proof.
  revert t. induction ts as [|u ts IH]; intros t H;
    [split; [constructor | reflexivity]|].
  simpl in H. apply andb_prop in H. destruct H as [Hlt H].
  apply Z.ltb_lt in Hlt.
  destruct (IH u H) as [Hf _]. split; [|exact H].
  constructor; [exact Hlt|]. eapply Forall_impl; [|exact Hf].
  intros z Hz. cbv beta in Hz. lia.
Qed.

Lemma turn_block_times (tr : Z * string * string) (b : bool) :
  Forall (fun m => s_created_at m = turn_time tr) (turn_block tr b).
Proof. destruct tr as [[t q] a]; destruct b; simpl; repeat constructor. Qed.

Lemma turn_block_perm (tr : Z * string * string) (b : bool) :
  Permutation (turn_block tr b) (turn_rows tr).
Proof.
  destruct tr as [[t q] a]; destruct b; simpl; [apply perm_swap | reflexivity].
Qed.

Lemma rows_later (t : Z) (rest : list (Z * string * string)) :
  Forall (fun tr => t < turn_time tr) rest ->
  Forall (fun m => t < s_created_at m) (stored_rows rest).
Proof.
  induction rest as [|tr rest IH]; intros H; [constructor|].
  inversion H as [|? ? Htr H']; subst.
  destruct tr as [[t' q] a]. simpl in Htr |- *.
  constructor; [exact Htr|]. constructor; [exact Htr|]. exact (IH H').
Qed.

Lemma blocks_later (t : Z) (tf : list ((Z * string * string) * bool)) :
  Forall (fun p => t < turn_time (fst p)) tf ->
  Forall (fun m => t < s_created_at m) (blocks tf).
Proof.
  induction tf as [|p tf IH]; intros H; [constructor|].
  inversion H as [|? ? Hp H']; subst.
  apply Forall_app. split; [|exact (IH H')].
  eapply Forall_impl; [|apply turn_block_times]. intros m E. simpl in E. lia.
Qed.

Lemma sorted_head_min (x p : stored_message) (L : list stored_message) :
  Sorted (fun x y => s_created_at x <= s_created_at y) (x :: L) ->
  In p (x :: L) -> s_created_at x <= s_created_at p.
Proof.
  intros Hs Hin.
  apply Sorted_StronglySorted in Hs; [|intros a b c H1 H2; lia].
  apply StronglySorted_inv in Hs. destruct Hs as [_ Hf].
  destruct Hin as [<-|Hin]; [lia|].
  rewrite Forall_forall in Hf. exact (Hf p Hin).
Qed.

(** The lists [ORDER BY created_at] may load are exactly the turns in
    order, each turn's two rows in either order. *)
Lemma loadable_blocks (turns : list (Z * string * string))
    (loaded : list stored_message) :
  increasing (map turn_time turns) = true ->
  loadable (stored_rows turns) loaded
  <-> exists flips, length flips = length turns
                    /\ loaded = blocks (combine turns flips).
Proof.
  intros Hinc. split.
  - revert loaded Hinc.
    induction turns as [|tr rest IH]; intros loaded Hinc [Hp Hs].
    + exists []. split; [reflexivity|].
      apply Permutation_nil. apply Permutation_sym. exact Hp.
    + destruct tr as [[t q] a].
      simpl map in Hinc. apply increasing_cons in Hinc.
      destruct Hinc as [Hlater Hinc]. rewrite Forall_map in Hlater.
      assert (HR := rows_later t rest Hlater).
      set (u := mk_stored "user" q t) in *.
      set (v := mk_stored "assistant" a t) in *.
      change (stored_rows ((t, q, a) :: rest))
        with (u :: v :: stored_rows rest) in Hp.
      rewrite Forall_forall in HR.
      destruct loaded as [|x L1];
        [apply Permutation_length in Hp; discriminate|].
      assert (Hxu : s_created_at x <= t).
      { apply (sorted_head_min x u L1 Hs).
        apply (Permutation_in _ (Permutation_sym Hp)). left. reflexivity. }
      assert (Hx : In x (u :: v :: stored_rows rest)).
      { apply (Permutation_in _ Hp). left. reflexivity. }
      apply Sorted_inv in Hs. destruct Hs as [Hs _].
      destruct Hx as [<-|[<-|HxR]];
        [| | specialize (HR x HxR); lia].
      * apply Permutation_cons_inv in Hp.
        destruct L1 as [|y L2];
          [apply Permutation_length in Hp; discriminate|].
        assert (Hyv : s_created_at y <= t).
        { apply (sorted_head_min y v L2 Hs).
          apply (Permutation_in _ (Permutation_sym Hp)). left. reflexivity. }
        assert (Hy : In y (v :: stored_rows rest)).
        { apply (Permutation_in _ Hp). left. reflexivity. }
        apply Sorted_inv in Hs. destruct Hs as [Hs _].
        destruct Hy as [<-|HyR]; [| specialize (HR y HyR); lia].
        apply Permutation_cons_inv in Hp.
        destruct (IH L2 Hinc (conj Hp Hs)) as (flips & Hl & E).
        exists (false :: flips). split; [simpl; lia|].
        rewrite E. reflexivity.
      * assert (Hp' : Permutation (v :: L1) (v :: u :: stored_rows rest))
          by (eapply perm_trans; [exact Hp | apply perm_swap]).
        apply Permutation_cons_inv in Hp'.
        destruct L1 as [|y L2];
          [apply Permutation_length in Hp'; discriminate|].
        assert (Hyu : s_created_at y <= t).
        { apply (sorted_head_min y u L2 Hs).
          apply (Permutation_in _ (Permutation_sym Hp')). left. reflexivity. }
        assert (Hy : In y (u :: stored_rows rest)).
        { apply (Permutation_in _ Hp'). left. reflexivity. }
        apply Sorted_inv in Hs. destruct Hs as [Hs _].
        destruct Hy as [<-|HyR]; [| specialize (HR y HyR); lia].
        apply Permutation_cons_inv in Hp'.
        destruct (IH L2 Hinc (conj Hp' Hs)) as (flips & Hl & E).
        exists (true :: flips). split; [simpl; lia|].
        rewrite E. reflexivity.
  - intros (flips & Hlen & ->). revert flips Hlen Hinc.
    induction turns as [|tr rest IH]; intros flips Hlen Hinc.
    + destruct flips; [|discriminate]. split; constructor.
    + destruct flips as [|b flips]; [discriminate|].
      simpl in Hlen. injection Hlen as Hlen.
      destruct tr as [[t q] a].
      simpl map in Hinc. apply increasing_cons in Hinc.
      destruct Hinc as [Hlater Hinc]. rewrite Forall_map in Hlater.
      destruct (IH flips Hlen Hinc) as [IHp IHs].
      assert (HB : Forall (fun m => t < s_created_at m)
                     (blocks (combine rest flips))).
      { apply blocks_later. apply Forall_forall. intros p Hin.
        destruct p as [tr b']. apply in_combine_l in Hin.
        rewrite Forall_forall in Hlater. exact (Hlater tr Hin). }
      change (blocks (combine ((t, q, a) :: rest) (b :: flips)))
        with (turn_block (t, q, a) b ++ blocks (combine rest flips))%list.
      split.
      * apply Permutation_app; [apply turn_block_perm | exact IHp].
      * assert (Hhd : forall m, s_created_at m = t ->
                  HdRel (fun x y => s_created_at x <= s_created_at y) m
                    (blocks (combine rest flips))).
        { intros m Hm. destruct (blocks (combine rest flips)) as [|m' B];
            constructor.
          inversion HB as [|? ? Hm' _]; subst. lia. }
        destruct b; simpl; (apply Sorted_cons; [apply Sorted_cons|]);
          try exact IHs; try (apply Hhd; reflexivity);
          constructor; simpl; lia.
Qed.

End TranscriptFacts.

Module HistoryFacts.
Import Transcript.

Lemma history_messages_all (prior : list Llm.message) :
  Llm.history_messages prior = skipn (length prior - 20) prior.
Proof.
  unfold Llm.history_messages, Llm.py_slice_from, Llm.MAX_HISTORY_TURNS.
  simpl (- (10 * 2))%Z. change (-20 <? 0)%Z with true. cbv iota.
  f_equal. lia.
Qed.

Lemma skipn_blocks (k : nat) (tf : list ((Z * string * string) * bool)) :
  skipn (2 * k) (blocks tf) = blocks (skipn k tf).
Proof.
  revert tf. induction k as [|k IH]; intros tf; [reflexivity|].
  destruct tf as [|[[[t q] a] b] tf]; [rewrite skipn_nil; reflexivity|].
  replace (2 * S k)%nat with (S (S (2 * k))) by lia.
  destruct b; simpl; apply IH.
Qed.

Lemma length_blocks (tf : list ((Z * string * string) * bool)) :
  length (blocks tf) = (2 * length tf)%nat.
Proof.
  induction tf as [|[[[t q] a] b] tf IH]; [reflexivity|].
  destruct b; simpl; fold (blocks tf); rewrite IH; lia.
Qed.

Lemma skipn_map_comm {A B} (f : A -> B) (n : nat) (l : list A) :
  skipn n (map f l) = map f (skipn n l).
Proof.
  revert l. induction n as [|n IH]; intros l; [reflexivity|].
  destruct l; [reflexivity|]. apply IH.
Qed.

End HistoryFacts.

Module BatchFacts.
Import EmbedNotes.

Lemma py_range_concat {A} (l : list A) (fuel s : nat) :
  (length l - s <= fuel)%nat ->
  concat (map (fun bs => Py.slice bs (bs + EMBED_BATCH_SIZE) l)
            (py_range fuel s (length l) EMBED_BATCH_SIZE))
  = skipn s l.
Proof.
  unfold EMBED_BATCH_SIZE.
  revert s. induction fuel as [|fuel IH]; intros s Hf.
  - simpl. symmetry. apply skipn_all2. lia.
  - simpl. destruct (s <? length l)%nat eqn:E.
    + apply Nat.ltb_lt in E. simpl. rewrite IH by lia.
      unfold Py.slice. replace (s + 16 - s)%nat with 16%nat by lia.
      replace (s + 16)%nat with (16 + s)%nat by lia.
      rewrite <- skipn_skipn. apply firstn_skipn.
    + apply Nat.ltb_ge in E. simpl. symmetry. apply skipn_all2. lia.
Qed.

Lemma py_range_bounds (fuel s n step : nat) (bs : nat) :
  In bs (py_range fuel s n step) -> (s <= bs < n)%nat.
Proof.
  revert s. induction fuel as [|fuel IH]; intros s H; [destruct H|].
  simpl in H. destruct (s <? n)%nat eqn:E; [|destruct H].
  apply Nat.ltb_lt in E. destruct H as [<-|H]; [lia|].
  apply IH in H. lia.
Qed.

Lemma py_range_length (fuel s n : nat) :
  (n - s <= fuel)%nat ->
  length (py_range fuel s n 16) = ((n - s + 15) / 16)%nat.
Proof.
  revert s. induction fuel as [|fuel IH]; intros s Hf.
  - simpl. replace (n - s)%nat with 0%nat by lia. reflexivity.
  - cbn [py_range]. destruct (s <? n)%nat eqn:E.
    + apply Nat.ltb_lt in E. cbn [length]. rewrite IH by lia.
      destruct (Nat.le_gt_cases (n - s) 16) as [Hle|Hgt].
      * replace (n - (s + 16) + 15)%nat with 15%nat by lia.
        rewrite (Nat.div_small 15 16) by lia.
        apply (Nat.div_unique _ _ _ (n - s - 1)); lia.
      * replace (n - s + 15)%nat with ((n - (s + 16) + 15) + 1 * 16)%nat
          by lia.
        rewrite Nat.div_add by lia. lia.
    + apply Nat.ltb_ge in E. replace (n - s)%nat with 0%nat by lia.
      reflexivity.
Qed.

Lemma batches_spec {A} (l : list A) :
  concat (batches l) = l
  /\ Forall (fun b => b <> [] /\ (length b <= EMBED_BATCH_SIZE)%nat) (batches l)
  /\ length (batches l) = total_batches (length l).
Proof.
  unfold batches. split; [|split].
  - rewrite py_range_concat by lia. reflexivity.
  - apply Forall_forall. intros b Hb. apply in_map_iff in Hb.
    destruct Hb as (bs & <- & Hin). apply py_range_bounds in Hin.
    unfold Py.slice, EMBED_BATCH_SIZE.
    rewrite length_firstn, length_skipn.
    split; [|lia]. intros H. apply (f_equal (@length A)) in H.
    rewrite length_firstn, length_skipn in H. destruct (Nat.min_spec (bs + 16 - bs) (length l - bs)) as [[_ Hm]|[_ Hm]]; rewrite Hm in H; cbn [length] in H; lia.
  - rewrite length_map. unfold total_batches, EMBED_BATCH_SIZE.
    rewrite py_range_length by lia.
    replace (length l + 16 - 1)%nat with (length l - 0 + 15)%nat by lia.
    reflexivity.
Qed.

End BatchFacts.

Module InsertFacts.
Import VectorSearch EmbedNotes.

Lemma insert_le_perm {A} (le : A -> A -> bool) (x : A) (l : list A) :
  Permutation (insert_le le x l) (x :: l).
Proof.
  induction l as [|y l IH]; simpl; [reflexivity|].
  destruct (le x y); [reflexivity|].
  eapply perm_trans; [apply perm_skip; exact IH | apply perm_swap].
Qed.

Lemma sort_le_perm {A} (le : A -> A -> bool) (l : list A) :
  Permutation (sort_le le l) l.
Proof.
  induction l as [|x l IH]; simpl; [reflexivity|].
  rewrite insert_le_perm. now apply perm_skip.
Qed.

Section Rows.

Variable chunker : string -> list string.
Variable new_uuid : nat -> string.

Lemma enum_rows_spec (n : case_note) (first idx : nat) (chunks : list string)
    (r : note_chunk) :
  In r (enum_rows new_uuid n first idx chunks) ->
  note_id r = cn_id n /\ case_id r = cn_case_id n
  /\ created_at r = cn_created_at n
  /\ caseworker_name r = cn_caseworker_name n
  /\ note_type r = cn_note_type n /\ embedding r = None
  /\ exists k, chunk_index r = Z.of_nat (idx + k)
               /\ nth_error chunks k = Some (chunk_text r).
Proof.
  revert idx. induction chunks as [|c cs IH]; intros idx H; [destruct H|].
  destruct H as [<-|H].
  - simpl. repeat split. exists 0%nat. split; [f_equal; lia | reflexivity].
  - destruct (IH (S idx) H) as (H1 & H2 & H3 & H4 & H5 & H6 & k & Hk & Hn).
    repeat split; try assumption.
    exists (S k). split; [rewrite Hk; f_equal; lia | exact Hn].
Qed.

Lemma enum_rows_nonempty (n : case_note) (first idx : nat)
    (chunks : list string) :
  chunks <> [] ->
  exists r, In r (enum_rows new_uuid n first idx chunks) /\ note_id r = cn_id n.
Proof.
  destruct chunks as [|c cs]; [congruence|]. intros _.
  eexists. split; [left; reflexivity | reflexivity].
Qed.

Lemma insert_notes_spec (p : list case_note) (t : list note_chunk) (k : nat) :
  exists new,
    insert_notes chunker new_uuid p t k = ((t ++ new)%list, (k + length new)%nat)
    /\ Forall (fun r => exists n, In n p
         /\ note_id r = cn_id n /\ case_id r = cn_case_id n
         /\ created_at r = cn_created_at n
         /\ caseworker_name r = cn_caseworker_name n
         /\ note_type r = cn_note_type n /\ embedding r = None
         /\ 0 <= chunk_index r
         /\ nth_error (chunker (cn_note_text n)) (Z.to_nat (chunk_index r))
            = Some (chunk_text r)) new
    /\ (forall n, In n p -> chunker (cn_note_text n) <> [] ->
          exists r, In r new /\ note_id r = cn_id n).
Proof.
  revert t k. induction p as [|n p IH]; intros t k.
  - exists []. rewrite app_nil_r, Nat.add_0_r. repeat split; [constructor|].
    intros n [].
  - simpl. destruct (IH (t ++ note_rows chunker new_uuid n k)%list
                        (k + length (note_rows chunker new_uuid n k))%nat)
      as (new & Heq & Hrows & Hcov).
    exists (note_rows chunker new_uuid n k ++ new)%list.
    split; [|split].
    + rewrite Heq, app_assoc, length_app. f_equal. lia.
    + apply Forall_app. split.
      * apply Forall_forall. intros r Hr. unfold note_rows in Hr.
        destruct (enum_rows_spec _ _ _ _ _ Hr)
          as (H1 & H2 & H3 & H4 & H5 & H6 & j & Hj & Hn).
        exists n. repeat split; try assumption; [left; reflexivity| | ];
          rewrite Hj; [lia|]. rewrite Nat2Z.id. exact Hn.
      * eapply Forall_impl; [|exact Hrows].
        intros r (n' & Hin & Hr). exists n'. split; [right; exact Hin|exact Hr].
    + intros n' [<-|Hin] Hne.
      * destruct (enum_rows_nonempty n k 0 _ Hne) as (r & Hr & Hid).
        exists r. split; [apply in_or_app; left; exact Hr|exact Hid].
      * destruct (Hcov n' Hin Hne) as (r & Hr & Hid).
        exists r. split; [apply in_or_app; right; exact Hr|exact Hid].
Qed.

Lemma insert_notes_none (p : list case_note) (t : list note_chunk) (k : nat) :
  Forall (fun n => chunker (cn_note_text n) = []) p ->
  insert_notes chunker new_uuid p t k = (t, k).
Proof.
  revert t k. induction p as [|n p IH]; intros t k H; [reflexivity|].
  inversion H as [|? ? Hn Hp]; subst. simpl. unfold note_rows. rewrite Hn.
  simpl. rewrite app_nil_r, Nat.add_0_r. apply IH. exact Hp.
Qed.

Lemma pending_notes_in (notes : list case_note) (t : list note_chunk)
    (n : case_note) :
  In n (pending_notes notes t) <-> In n notes /\ has_chunks t n = false.
Proof.
  unfold pending_notes. split; intros H.
  - apply (Permutation_in _ (SearchFacts.sort_by_perm _ _)) in H.
    apply filter_In in H. destruct H as [H1 H2].
    split; [exact H1|]. destruct (has_chunks t n); [discriminate|reflexivity].
  - apply (Permutation_in _ (Permutation_sym (SearchFacts.sort_by_perm _ _))).
    apply filter_In. destruct H as [H1 H2]. rewrite H2. split; [exact H1|reflexivity].
Qed.

Lemma has_chunks_app (t new : list note_chunk) (n : case_note) :
  has_chunks (t ++ new)%list n = has_chunks t n || has_chunks new n.
Proof. unfold has_chunks. apply existsb_app. Qed.

Lemma chunk_phase_spec (notes : list case_note) (table : list note_chunk) :
  exists new,
    chunk_phase chunker new_uuid notes table = ((table ++ new)%list, length new)
    /\ Forall (fun r => exists n, In n notes /\ has_chunks table n = false
         /\ note_id r = cn_id n /\ case_id r = cn_case_id n
         /\ created_at r = cn_created_at n
         /\ caseworker_name r = cn_caseworker_name n
         /\ note_type r = cn_note_type n /\ embedding r = None
         /\ 0 <= chunk_index r
         /\ nth_error (chunker (cn_note_text n)) (Z.to_nat (chunk_index r))
            = Some (chunk_text r)) new
    /\ (forall n, In n notes ->
          has_chunks (table ++ new)%list n = true \/ chunker (cn_note_text n) = []).
Proof.
  unfold chunk_phase.
  destruct (insert_notes_spec (pending_notes notes table) table 0)
    as (new & Heq & Hrows & Hcov).
  exists new. split; [exact Heq|split].
  - eapply Forall_impl; [|exact Hrows]. intros r (n & Hin & Hr).
    apply pending_notes_in in Hin. destruct Hin as [Hin Hnc].
    exists n. split; [exact Hin|split; [exact Hnc|exact Hr]].
  - intros n Hin. rewrite has_chunks_app.
    destruct (has_chunks table n) eqn:Ht; [left; reflexivity|].
    destruct (chunker (cn_note_text n)) as [|c cs] eqn:Hc; [right; reflexivity|].
    left. assert (Hp : In n (pending_notes notes table))
      by (apply pending_notes_in; split; assumption).
    destruct (Hcov n Hp ltac:(congruence)) as (r & Hr & Hid).
    simpl. unfold has_chunks. apply existsb_exists. exists r.
    split; [exact Hr|]. apply String.eqb_eq. exact Hid.
Qed.

End Rows.
End InsertFacts.

Module EmbedFacts.
Import VectorSearch EmbedNotes.

Lemma pending_chunks_in (t : list note_chunk) (r : note_chunk) :
  In r (pending_chunks t) <-> In r t /\ embedding r = None.
Proof.
  unfold pending_chunks. split; intros H.
  - apply (Permutation_in _ (InsertFacts.sort_le_perm _ _)) in H.
    apply filter_In in H. destruct H as [H1 H2]. split; [exact H1|].
    destruct (embedding r); [discriminate|reflexivity].
  - apply (Permutation_in _ (Permutation_sym (InsertFacts.sort_le_perm _ _))).
    apply filter_In. destruct H as [H1 H2]. rewrite H2. split; [exact H1|reflexivity].
Qed.

Lemma embed_documents_raises
    (respond : nat -> list string -> Embedding.hf_response)
    (texts : list string) :
  snd (Embedding.embed_documents respond texts)
  = Embedding.Raised "AttributeError".
Proof.
  assert (H : Embedding.has_setting "HF_TOKEN" = false) by reflexivity.
  unfold Embedding.embed_documents, Embedding.call_hf_api. rewrite H.
  reflexivity.
Qed.

Lemma embed_batches_raise
    (respond : nat -> nat -> list string -> Embedding.hf_response)
    (bn : nat) (bs : list (list note_chunk)) (t : list note_chunk) :
  embed_batches respond bn bs t
  = (t, match bs with
        | [] => Embedding.Returned tt
        | _ => Embedding.Raised "AttributeError"
        end).
Proof.
  destruct bs as [|b bs]; [reflexivity|].
  cbn [embed_batches]. rewrite embed_documents_raises. reflexivity.
Qed.

Lemma batches_nil {A} (l : list A) : batches l = [] <-> l = [].
Proof.
  destruct (BatchFacts.batches_spec l) as (Hcat & _ & _).
  split; intros H.
  - rewrite <- Hcat, H. reflexivity.
  - subst. reflexivity.
Qed.

Lemma pending_chunks_nil (t : list note_chunk) :
  pending_chunks t = [] <-> forall r, In r t -> embedding r <> None.
Proof.
  split.
  - intros H r Hr Hn. assert (Hp : In r (pending_chunks t))
      by (apply pending_chunks_in; split; assumption).
    rewrite H in Hp. destruct Hp.
  - intros H. destruct (pending_chunks t) as [|r rs] eqn:E; [reflexivity|].
    exfalso. assert (Hp : In r (pending_chunks t)) by (rewrite E; left; reflexivity).
    apply pending_chunks_in in Hp. destruct Hp as [Hr Hn]. exact (H r Hr Hn).
Qed.

End EmbedFacts.

Module UrlFacts.
Import DbUrl.

Lemma filter_filter {A} (f g : A -> bool) (l : list A) :
  filter f (filter g l) = filter (fun x => g x && f x) l.
Proof.
  induction l as [|x l IH]; simpl; [reflexivity|].
  destruct (g x); simpl; [destruct (f x); simpl; rewrite ?IH; reflexivity|].
  exact IH.
Qed.

Lemma first_values_some (d : query_dict) :
  forallb (fun p => match snd p with [] => false | _ => true end) d = true ->
  first_values d = Some (map (fun p => (fst p, hd "" (snd p))) d).
Proof.
  induction d as [|[k vs] d IH]; simpl; intros H; [reflexivity|].
  apply andb_prop in H. destruct H as [Hk Hd].
  destruct vs as [|v vs]; [discriminate|]. rewrite IH by exact Hd.
  reflexivity.
Qed.

Lemma forallb_filter {A} (p f : A -> bool) (l : list A) :
  forallb p l = true -> forallb p (filter f l) = true.
Proof.
  induction l as [|x l IH]; simpl; intros H; [reflexivity|].
  apply andb_prop in H. destruct H as [Hx Hl].
  destruct (f x); simpl; [rewrite Hx|]; apply IH; exact Hl.
Qed.

End UrlFacts.

Module CaseFacts.
Import CaseList.

Lemma sql_min_none (l : list Z) : sql_min l = None <-> l = [].
Proof.
  destruct l as [|x l]; simpl; [tauto|].
  split; [destruct (sql_min l); discriminate|discriminate].
Qed.

Lemma sql_max_none (l : list Z) : sql_max l = None <-> l = [].
Proof.
  destruct l as [|x l]; simpl; [tauto|].
  split; [destruct (sql_max l); discriminate|discriminate].
Qed.

Lemma sql_min_spec (l : list Z) (m : Z) :
  sql_min l = Some m -> In m l /\ Forall (fun t => m <= t) l.
Proof.
  revert m. induction l as [|x l IH]; intros m H; [discriminate|].
  simpl in H. destruct (sql_min l) as [m'|] eqn:E.
  - injection H as <-. destruct (IH m' eq_refl) as [Hin Hall].
    split.
    + destruct (Z.min_spec x m') as [[_ ->]|[_ ->]];
        [left; reflexivity|right; exact Hin].
    + constructor; [lia|]. eapply Forall_impl; [|exact Hall].
      intros t Ht. cbv beta in Ht. lia.
  - injection H as <-. apply sql_min_none in E. subst.
    split; [left; reflexivity|constructor; [lia|constructor]].
Qed.

Lemma sql_max_spec (l : list Z) (m : Z) :
  sql_max l = Some m -> In m l /\ Forall (fun t => t <= m) l.
Proof.
  revert m. induction l as [|x l IH]; intros m H; [discriminate|].
  simpl in H. destruct (sql_max l) as [m'|] eqn:E.
  - injection H as <-. destruct (IH m' eq_refl) as [Hin Hall].
    split.
    + destruct (Z.max_spec x m') as [[_ ->]|[_ ->]];
        [right; exact Hin|left; reflexivity].
    + constructor; [lia|]. eapply Forall_impl; [|exact Hall].
      intros t Ht. cbv beta in Ht. lia.
  - injection H as <-. apply sql_max_none in E. subst.
    split; [left; reflexivity|constructor; [lia|constructor]].
Qed.

Lemma to_date_mono (a b : Z) : a <= b -> to_date a <= to_date b.
Proof.
  intros H. unfold to_date. apply Z.div_le_mono; [|exact H].
  unfold VectorSearch.usec_per_day. lia.
Qed.

End CaseFacts.

Module DebugFacts.
Import DebugView.

Lemma find_app {A} (f : A -> bool) (l1 l2 : list A) :
  find f (l1 ++ l2) = match find f l1 with Some x => Some x | None => find f l2 end.
Proof.
  induction l1 as [|x l1 IH]; simpl; [reflexivity|].
  destruct (f x); [reflexivity|exact IH].
Qed.

Lemma absent_id (P : list chunk_row) (nid : string) :
  ~ In nid (map d_note_id P) ->
  find (fun r => String.eqb (d_note_id r) nid) P = None
  /\ filter (fun r => String.eqb (d_note_id r) nid) P = [].
Proof.
  induction P as [|r P IH]; simpl; intros H; [split; reflexivity|].
  destruct (String.eqb (d_note_id r) nid) eqn:E.
  - apply String.eqb_eq in E. exfalso. apply H. left. exact E.
  - apply IH. intros Hin. apply H. right. exact Hin.
Qed.

Lemma update_group_map (row : chunk_row) (gs : list note_group) :
  NoDup (map g_note_id gs) ->
  update_group row gs
  = map (fun g => if String.eqb (g_note_id g) (d_note_id row)
                  then bump row g else g) gs.
Proof.
  induction gs as [|g gs IH]; simpl; intros Hnd; [reflexivity|].
  inversion Hnd as [|? ? Hnin Hnd']; subst.
  destruct (String.eqb (g_note_id g) (d_note_id row)) eqn:E.
  - f_equal. symmetry. transitivity (map (fun x => x) gs); [|apply map_id].
    apply map_ext_in. intros g' Hg'.
    destruct (String.eqb (g_note_id g') (d_note_id row)) eqn:E'; [|reflexivity].
    apply String.eqb_eq in E, E'. exfalso. apply Hnin.
    rewrite E, <- E'. apply in_map. exact Hg'.
  - f_equal. apply IH. exact Hnd'.
Qed.

Lemma sum_indicator (ids : list string) (nid : string) :
  NoDup ids ->
  list_sum (map (fun i => if String.eqb i nid then 1%nat else 0%nat) ids)
  = if in_dec string_dec nid ids then 1%nat else 0%nat.
Proof.
  induction ids as [|i ids IH]; simpl; intros Hnd; [reflexivity|].
  inversion Hnd as [|? ? Hnin Hnd']; subst. rewrite IH by exact Hnd'.
  destruct (String.eqb i nid) eqn:E.
  - apply String.eqb_eq in E. subst.
    destruct (in_dec string_dec nid ids); [contradiction|].
    destruct (string_dec nid nid); [reflexivity|congruence].
  - apply String.eqb_neq in E.
    destruct (string_dec i nid); [congruence|].
    destruct (in_dec string_dec nid ids); reflexivity.
Qed.

Lemma sum_bump (row : chunk_row) (gs : list note_group) :
  list_sum (map g_chunk_count
    (map (fun g => if String.eqb (g_note_id g) (d_note_id row)
                   then bump row g else g) gs))
  = (list_sum (map g_chunk_count gs)
     + list_sum (map (fun i => if String.eqb i (d_note_id row) then 1%nat else 0%nat)
                   (map g_note_id gs)))%nat.
Proof.
  induction gs as [|g gs IH]; simpl; [reflexivity|]. rewrite IH.
  destruct (String.eqb (g_note_id g) (d_note_id row)); simpl; lia.
Qed.

Lemma ids_bump (row : chunk_row) (gs : list note_group) :
  map g_note_id
    (map (fun g => if String.eqb (g_note_id g) (d_note_id row)
                   then bump row g else g) gs)
  = map g_note_id gs.
Proof.
  rewrite map_map. apply map_ext. intros g.
  destruct (String.eqb (g_note_id g) (d_note_id row)); reflexivity.
Qed.

Lemma group_step (P : list chunk_row) (row : chunk_row) (g : note_group) :
  (g_chunks g = map entry_of
     (filter (fun r => String.eqb (d_note_id r) (g_note_id g)) P)
   /\ g_chunk_count g = length (g_chunks g)
   /\ exists r, find (fun r => String.eqb (d_note_id r) (g_note_id g)) P = Some r
       /\ g_note_date g = d_note_date r /\ g_note_type g = d_note_type r
       /\ g_caseworker_name g = d_caseworker_name r) ->
  let g' := if String.eqb (g_note_id g) (d_note_id row) then bump row g else g in
  g_chunks g' = map entry_of
     (filter (fun r => String.eqb (d_note_id r) (g_note_id g')) (P ++ [row]))
  /\ g_chunk_count g' = length (g_chunks g')
  /\ exists r, find (fun r => String.eqb (d_note_id r) (g_note_id g'))
                 (P ++ [row]) = Some r
       /\ g_note_date g' = d_note_date r /\ g_note_type g' = d_note_type r
       /\ g_caseworker_name g' = d_caseworker_name r.
Proof.
  intros (Hch & Hcnt & r & Hf & Hd & Ht & Hc). cbv zeta.
  rewrite filter_app, find_app, map_app. simpl.
  rewrite (String.eqb_sym (d_note_id row)).
  destruct (String.eqb (g_note_id g) (d_note_id row)) eqn:E; simpl;
    rewrite ?E, Hf; simpl.
  - split; [rewrite Hch; reflexivity|split].
    + rewrite length_app, Hcnt. simpl. lia.
    + exists r. repeat split; assumption.
  - rewrite app_nil_r. split; [exact Hch|split; [exact Hcnt|]].
    exists r. repeat split; assumption.
Qed.

Lemma fold_groups (rows : list chunk_row) :
  let gs := fold_left add_row rows [] in
  NoDup (map g_note_id gs)
  /\ (forall nid, In nid (map g_note_id gs) <-> In nid (map d_note_id rows))
  /\ Forall (fun g =>
       g_chunks g = map entry_of
         (filter (fun r => String.eqb (d_note_id r) (g_note_id g)) rows)
       /\ g_chunk_count g = length (g_chunks g)
       /\ exists r, find (fun r => String.eqb (d_note_id r) (g_note_id g))
                      rows = Some r
           /\ g_note_date g = d_note_date r /\ g_note_type g = d_note_type r
           /\ g_caseworker_name g = d_caseworker_name r) gs
  /\ list_sum (map g_chunk_count gs) = length rows.
Proof.
  induction rows as [|row rows IH] using rev_ind; cbv zeta.
  - simpl. split; [constructor|split; [tauto|split; [constructor|reflexivity]]].
  - cbv zeta in IH. rewrite fold_left_app. simpl.
    set (gs := fold_left add_row rows []) in *.
    destruct IH as (Hnd & Hids & Hok & Hsum).
    set (f := fun g => if String.eqb (g_note_id g) (d_note_id row)
                       then bump row g else g).
    unfold add_row.
    destruct (existsb (fun g => String.eqb (g_note_id g) (d_note_id row)) gs)
      eqn:Ex.
    + assert (Hin : In (d_note_id row) (map g_note_id gs)).
      { apply existsb_exists in Ex. destruct Ex as (g & Hg & Heq).
        apply String.eqb_eq in Heq. rewrite <- Heq. apply in_map. exact Hg. }
      rewrite update_group_map by exact Hnd. fold f.
      split; [unfold f; rewrite ids_bump; exact Hnd|split; [|split]].
      * intros nid. unfold f. rewrite ids_bump, Hids, map_app. simpl.
        rewrite in_app_iff. simpl. split; [tauto|].
        intros [H|[H|[]]]; [exact H|]. apply Hids. rewrite <- H. exact Hin.
      * apply Forall_map. eapply Forall_impl; [|exact Hok].
        intros g Hg. exact (group_step rows row g Hg).
      * unfold f. rewrite sum_bump, sum_indicator by exact Hnd.
        destruct (in_dec string_dec (d_note_id row) (map g_note_id gs));
          [|contradiction].
        rewrite Hsum, length_app. reflexivity.
    + assert (Hnin : ~ In (d_note_id row) (map g_note_id gs)).
      { intros H. apply in_map_iff in H. destruct H as (g & Heq & Hg).
        assert (existsb (fun g => String.eqb (g_note_id g) (d_note_id row)) gs
                = true) by (apply existsb_exists; exists g; split;
                            [exact Hg|apply String.eqb_eq; exact Heq]).
        congruence. }
      set (g0 := mk_note_group (d_note_id row) (d_note_date row)
                   (d_note_type row) (d_caseworker_name row) 0 []).
      assert (Hnd' : NoDup (map g_note_id (gs ++ [g0]))).
      { rewrite map_app. simpl. apply NoDup_app; [exact Hnd|repeat constructor; intros []|].
        intros x Hx [Hx'|[]]. apply Hnin. rewrite <- Hx' in Hx. exact Hx. }
      rewrite update_group_map by exact Hnd'. fold f.
      split; [unfold f; rewrite ids_bump; exact Hnd'|split; [|split]].
      * intros nid. unfold f. rewrite ids_bump, !map_app, !in_app_iff, Hids.
        simpl. tauto.
      * rewrite map_app. apply Forall_app. split.
        -- apply Forall_map. eapply Forall_impl; [|exact Hok].
           intros g Hg. exact (group_step rows row g Hg).
        -- constructor; [|constructor].
           assert (Hr : ~ In (d_note_id row) (map d_note_id rows))
             by (intros H; apply Hnin, Hids, H).
           destruct (absent_id rows (d_note_id row) Hr) as [Hf Hfl].
           unfold f. simpl. rewrite String.eqb_refl. simpl.
           rewrite filter_app, find_app, Hf, Hfl. simpl.
           rewrite String.eqb_refl. simpl.
           split; [reflexivity|split; [reflexivity|]].
           exists row. repeat split.
      * unfold f. rewrite sum_bump, sum_indicator by exact Hnd'.
        destruct (in_dec string_dec (d_note_id row) (map g_note_id (gs ++ [g0])))
          as [_|Hno].
        -- rewrite map_app, list_sum_app, Hsum, length_app. simpl. lia.
        -- exfalso. apply Hno. rewrite map_app. apply in_or_app. right.
           left. reflexivity.
Qed.

End DebugFacts.


(* ================================================================== *)
(** ** Further properties of the code *)

(** [chunk_text] returns at most one chunk per sentence of the
    segmentation (and at most one chunk when the segmentation is empty),
    and at least one chunk when the segmentation is non-empty. *)
Theorem chunk_text_count_bound (sent_tokenize : string -> list string)
    (max_chars min_overlap_chars max_overlap_chars : Z) (text : string) :
  (length (chunk_text sent_tokenize max_chars min_overlap_chars
             max_overlap_chars text)
   <= Nat.max 1 (length (sent_tokenize text)))%nat
  /\ (sent_tokenize text <> [] ->
      (1 <= length (chunk_text sent_tokenize max_chars min_overlap_chars
                      max_overlap_chars text))%nat).
Proof.
  destruct (sent_tokenize text) as [|s ss] eqn:E.
  - unfold chunk_text. rewrite E.
    split; [|congruence].
    match goal with |- context [if ?b then _ else _] => destruct b end;
      simpl; lia.
  - assert (Hne : sent_tokenize text <> []) by congruence.
    destruct (Z_le_gt_dec (Py.len text) max_chars) as [Hl|Hl].
    + rewrite chunk_text_short by assumption. simpl. split; [lia|auto].
    + rewrite chunk_text_long by assumption. rewrite length_map, E.
      split.
      * rewrite <- E. eapply Nat.le_trans;
          [apply CountFacts.chunks_of_count | lia].
      * intros _. rewrite <- E.
        destruct (chunks_of max_chars min_overlap_chars max_overlap_chars
                    (sent_tokenize text)) eqn:Ec;
          [exfalso; exact (chunks_of_nonempty _ _ _ _ Hne Ec) | simpl; lia].
Qed.

(** The user turn [generate_answer] builds ends with
    ["**Question:** " + user_question]; with no retrieved chunk it is the
    fixed "no excerpts" sentence followed by the question, and otherwise it
    contains, for every retrieved chunk, its labelled excerpt
    ["[date, type, caseworker]:\n" + chunk_text + "\n"]. *)
Theorem user_message_contents (strftime_date : Z -> string)
    (user_question : string) (retrieved_notes : list VectorSearch.retrieved) :
  (exists pre, Prompt.full_user_message strftime_date user_question
                 retrieved_notes
               = pre ++ "**Question:** " ++ user_question)
  /\ (retrieved_notes = [] ->
      Prompt.full_user_message strftime_date user_question retrieved_notes
      = Prompt.no_context ++ Prompt.nl ++ Prompt.nl ++ "**Question:** "
        ++ user_question)
  /\ (forall note, In note retrieved_notes ->
      exists pre post,
        Prompt.full_user_message strftime_date user_question retrieved_notes
        = pre ++ Prompt.context_line strftime_date note ++ post).
Proof.
  split; [|split].
  - exists (Prompt.context_block strftime_date retrieved_notes
            ++ Prompt.nl ++ Prompt.nl).
    unfold Prompt.full_user_message. rewrite <- !StringFacts.sapp_assoc.
    reflexivity.
  - intros ->. reflexivity.
  - intros note Hin.
    assert (Hc : exists pre post,
               Prompt.context_block strftime_date retrieved_notes
               = pre ++ Prompt.context_line strftime_date note ++ post).
    { destruct retrieved_notes as [|n ns]; [destruct Hin|].
      apply StringFacts.concat_in. right.
      apply in_map. exact Hin. }
    destruct Hc as (pre & post & Hc).
    exists pre, (post ++ Prompt.nl ++ Prompt.nl ++ "**Question:** "
                 ++ user_question).
    unfold Prompt.full_user_message. rewrite Hc.
    rewrite <- !StringFacts.sapp_assoc. reflexivity.
Qed.

(** The [contents] sent to Gemini are the last [min(len(prior), 20)] prior
    messages, in order, each with role ["model"] for an assistant message
    and ["user"] otherwise, followed by the user turn; so it has
    [min(len(prior), 20) + 1] items and no role besides ["user"] and
    ["model"]. *)
Theorem gemini_request_shape (strftime_date : Z -> string)
    (user_question : string) (retrieved_notes : list VectorSearch.retrieved)
    (prior_messages : list Llm.message) :
  let contents := Prompt.generate_request strftime_date user_question
                    retrieved_notes prior_messages in
  contents
  = (map Llm.to_history (skipn (length prior_messages - 20) prior_messages)
     ++ [Llm.mk_content "user"
           [Prompt.full_user_message strftime_date user_question
              retrieved_notes]])%list
  /\ length contents = S (Nat.min (length prior_messages) 20)
  /\ Forall (fun ci => Llm.c_role ci = "user" \/ Llm.c_role ci = "model")
       contents.
Proof.
  intros contents.
  assert (E : contents
              = (map Llm.to_history
                   (skipn (length prior_messages - 20) prior_messages)
                 ++ [Llm.mk_content "user"
                       [Prompt.full_user_message strftime_date user_question
                          retrieved_notes]])%list).
  { unfold contents, Prompt.generate_request, Llm.generate_contents.
    rewrite HistoryFacts.history_messages_all. reflexivity. }
  split; [exact E|]. rewrite E. split.
  - rewrite length_app, length_map, length_skipn. simpl. lia.
  - apply Forall_app. split; [|repeat constructor; left; reflexivity].
    apply Forall_forall. intros ci Hin. apply in_map_iff in Hin.
    destruct Hin as (m & <- & _).
    unfold Llm.to_history, Llm.gemini_role. simpl.
    destruct (String.eqb (Llm.role m) "assistant"); [right|left]; reflexivity.
Qed.

(** A source preview ([snippet] in [chat], [preview] in [debug]) has at
    most [limit + 1] code points and starts with the first [limit] code
    points of the text: it is the text itself when the text has at most
    [limit] code points, and otherwise those [limit] code points followed
    by ["…"]. *)
Theorem preview_bounds (limit : nat) (text : list Z) :
  (length (Preview.preview limit text) <= S limit)%nat
  /\ firstn limit (Preview.preview limit text) = firstn limit text
  /\ ((length text <= limit)%nat -> Preview.preview limit text = text)
  /\ ((limit < length text)%nat ->
      Preview.preview limit text = (firstn limit text ++ [Preview.ellipsis])%list).
Proof.
  unfold Preview.preview.
  destruct (limit <? length text)%nat eqn:E.
  - apply Nat.ltb_lt in E.
    assert (Hl : length (firstn limit text) = limit)
      by (rewrite length_firstn; lia).
    split; [rewrite length_app, Hl; simpl; lia|].
    split; [|split; [lia | reflexivity]].
    rewrite firstn_app, Hl, Nat.sub_diag, firstn_O, app_nil_r.
    rewrite firstn_firstn, Nat.min_id. reflexivity.
  - apply Nat.ltb_ge in E. rewrite app_nil_r.
    rewrite firstn_all2 by exact E.
    split; [lia|]. split; [rewrite firstn_all2 by exact E; reflexivity|].
    split; [reflexivity | lia].
Qed.

(** When each [chat] call stores its user and assistant rows with the same
    [created_at] (the transaction's [now()]) and the calls' times increase,
    the message lists the session can load ordered by [created_at] are
    exactly the turns in order with each turn's two messages in either
    order. *)
Theorem chat_history_load_orders (turns : list (Z * string * string))
    (loaded : list Transcript.stored_message) :
  Transcript.increasing (map Transcript.turn_time turns) = true ->
  Transcript.loadable (Transcript.stored_rows turns) loaded
  <-> exists flips, length flips = length turns
                    /\ loaded = Transcript.blocks (combine turns flips).
Proof. intros Hinc. exact (TranscriptFacts.loadable_blocks turns loaded Hinc). Qed.

Lemma chat_history_load_orders_witness :
  Transcript.increasing (map Transcript.turn_time two_turns) = true
  /\ Transcript.loadable (Transcript.stored_rows two_turns)
       (Transcript.blocks (combine two_turns [true; false])).
Proof.
  assert (H : Transcript.increasing (map Transcript.turn_time two_turns) = true)
    by reflexivity.
  split; [exact H|].
  apply (chat_history_load_orders two_turns _ H).
  exists [true; false]. split; reflexivity.
Defined.

(** Whatever order [ORDER BY created_at] gives the two messages of a turn,
    the history [generate_answer] sends holds exactly the last
    [min(n, MAX_HISTORY_TURNS)] of the [n] turns, each with both of its
    messages. *)
Theorem history_window_last_turns (turns : list (Z * string * string))
    (loaded : list Transcript.stored_message) :
  Transcript.increasing (map Transcript.turn_time turns) = true ->
  Transcript.loadable (Transcript.stored_rows turns) loaded ->
  exists flips,
    length flips = length turns
    /\ Llm.history_messages (Transcript.prior_messages loaded)
       = Transcript.prior_messages
           (Transcript.blocks
              (skipn (length turns - Z.to_nat Llm.MAX_HISTORY_TURNS)
                 (combine turns flips))).
Proof.
  intros Hinc Hl.
  apply (TranscriptFacts.loadable_blocks turns loaded Hinc) in Hl.
  destruct Hl as (flips & Hlen & ->).
  exists flips. split; [exact Hlen|].
  rewrite HistoryFacts.history_messages_all.
  unfold Transcript.prior_messages.
  rewrite length_map, HistoryFacts.length_blocks, length_combine, Hlen,
    Nat.min_id.
  change (Z.to_nat Llm.MAX_HISTORY_TURNS) with 10%nat.
  replace (2 * length turns - 20)%nat with (2 * (length turns - 10))%nat
    by lia.
  rewrite HistoryFacts.skipn_map_comm, HistoryFacts.skipn_blocks.
  rewrite <- Hlen at 2. rewrite Hlen. reflexivity.
Qed.

Lemma history_window_last_turns_witness :
  Transcript.increasing (map Transcript.turn_time two_turns) = true
  /\ Llm.history_messages
       (Transcript.prior_messages
          (Transcript.blocks (combine two_turns [true; false])))
     = Transcript.prior_messages
         (Transcript.blocks (combine two_turns [true; false])).
Proof.
  assert (H : Transcript.increasing (map Transcript.turn_time two_turns) = true)
    by reflexivity.
  split; [exact H|].
  assert (Hl : Transcript.loadable (Transcript.stored_rows two_turns)
                 (Transcript.blocks (combine two_turns [true; false]))).
  { apply (TranscriptFacts.loadable_blocks two_turns _ H).
    exists [true; false]. split; reflexivity. }
  destruct (history_window_last_turns two_turns _ H Hl) as (fl & _ & E).
  vm_compute. reflexivity.
Defined.

(** [embed_notes.main] step 4: the batches [range(0, len, EMBED_BATCH_SIZE)]
    cut the pending chunks into consecutive non-empty pieces of at most
    [EMBED_BATCH_SIZE] chunks that join back to the whole list, and there
    are [total_batches] of them. *)
Theorem embed_batches_partition {A} (pending : list A) :
  concat (EmbedNotes.batches pending) = pending
  /\ Forall (fun b => b <> [] /\ (length b <= EmbedNotes.EMBED_BATCH_SIZE)%nat)
       (EmbedNotes.batches pending)
  /\ length (EmbedNotes.batches pending)
     = EmbedNotes.total_batches (length pending).
Proof. exact (BatchFacts.batches_spec pending). Qed.

(** [embed_notes.main] steps 1-2: the chunk phase only appends rows, and
    reports how many it appended; each new row belongs to a note that had
    no chunk, copies that note's id, case, date, caseworker and type, has
    no embedding, and holds the note's chunk at its [chunk_index]; and
    afterwards every note has chunks unless [chunk_text] gave it none. *)
Theorem chunk_phase_appends_note_rows (chunker : string -> list string)
    (new_uuid : nat -> string) (notes : list EmbedNotes.case_note)
    (table : list VectorSearch.note_chunk) :
  exists new,
    EmbedNotes.chunk_phase chunker new_uuid notes table
      = ((table ++ new)%list, length new)
    /\ Forall (fun r => exists n, In n notes
         /\ EmbedNotes.has_chunks table n = false
         /\ VectorSearch.note_id r = EmbedNotes.cn_id n
         /\ VectorSearch.case_id r = EmbedNotes.cn_case_id n
         /\ VectorSearch.created_at r = EmbedNotes.cn_created_at n
         /\ VectorSearch.caseworker_name r = EmbedNotes.cn_caseworker_name n
         /\ VectorSearch.note_type r = EmbedNotes.cn_note_type n
         /\ VectorSearch.embedding r = None
         /\ 0 <= VectorSearch.chunk_index r
         /\ nth_error (chunker (EmbedNotes.cn_note_text n))
              (Z.to_nat (VectorSearch.chunk_index r))
            = Some (VectorSearch.chunk_text r)) new
    /\ (forall n, In n notes ->
          EmbedNotes.has_chunks (table ++ new)%list n = true
          \/ chunker (EmbedNotes.cn_note_text n) = []).
Proof. exact (InsertFacts.chunk_phase_spec chunker new_uuid notes table). Qed.

(** Running the chunk phase of [embed_notes.main] a second time inserts
    nothing and reports 0 chunks inserted. *)
Theorem chunk_phase_idempotent (chunker : string -> list string)
    (new_uuid : nat -> string) (notes : list EmbedNotes.case_note)
    (table : list VectorSearch.note_chunk) :
  let table' := fst (EmbedNotes.chunk_phase chunker new_uuid notes table) in
  EmbedNotes.chunk_phase chunker new_uuid notes table' = (table', 0%nat).
Proof.
  destruct (InsertFacts.chunk_phase_spec chunker new_uuid notes table)
    as (new & Heq & _ & Hcov).
  cbv zeta. rewrite Heq. cbn [fst]. unfold EmbedNotes.chunk_phase.
  apply InsertFacts.insert_notes_none. apply Forall_forall. intros n Hn.
  apply InsertFacts.pending_notes_in in Hn. destruct Hn as [Hin Hnc].
  destruct (Hcov n Hin) as [H|H]; [congruence|exact H].
Qed.

(** [embed_notes.main] steps 3 and 4: the embedding phase never changes
    [note_chunks].  It ends normally exactly when no row has a NULL
    embedding; otherwise the first batch's [embed_documents] raises
    [AttributeError] ([settings.HF_TOKEN]) and no row is updated. *)
Theorem embed_phase_outcome
    (respond : nat -> nat -> list string -> Embedding.hf_response)
    (table : list VectorSearch.note_chunk) :
  EmbedNotes.embed_phase respond table
  = (table,
     if forallb (fun r => match VectorSearch.embedding r with
                          | None => false | Some _ => true end) table
     then Embedding.Returned tt else Embedding.Raised "AttributeError").
Proof.
  unfold EmbedNotes.embed_phase. rewrite EmbedFacts.embed_batches_raise.
  f_equal.
  destruct (forallb _ table) eqn:F.
  - assert (Hp : EmbedNotes.pending_chunks table = []).
    { apply EmbedFacts.pending_chunks_nil. intros r Hr Hn.
      rewrite forallb_forall in F. specialize (F r Hr). rewrite Hn in F.
      discriminate. }
    rewrite Hp. reflexivity.
  - destruct (EmbedNotes.batches (EmbedNotes.pending_chunks table)) as [|b bs] eqn:E;
      [|reflexivity].
    apply (proj1 (EmbedFacts.batches_nil _)) in E.
    pose proof (proj1 (EmbedFacts.pending_chunks_nil table) E) as E0; clear E; rename E0 into E.
    assert (Ht : forallb (fun r => match VectorSearch.embedding r with
                          | None => false | Some _ => true end) table = true).
    { apply forallb_forall. intros r Hr. specialize (E r Hr).
      destruct (VectorSearch.embedding r); [reflexivity|congruence]. }
    congruence.
Qed.

(** [embed_notes.main()]: the table it leaves is the one the chunk phase
    built.  It ends normally exactly when the chunk phase inserted no row
    and every row already had an embedding; so whenever a note was chunked
    in this run, it ends with [AttributeError] and the new rows keep a NULL
    embedding. *)
Theorem main_stops_after_chunking (chunker : string -> list string)
    (new_uuid : nat -> string)
    (respond : nat -> nat -> list string -> Embedding.hf_response)
    (notes : list EmbedNotes.case_note) (table : list VectorSearch.note_chunk) :
  let cp := EmbedNotes.chunk_phase chunker new_uuid notes table in
  fst (EmbedNotes.main chunker new_uuid respond notes table) = fst cp
  /\ (snd (EmbedNotes.main chunker new_uuid respond notes table)
        = Embedding.Returned tt
      <-> snd cp = 0%nat
          /\ forall r, In r table -> VectorSearch.embedding r <> None)
  /\ (snd cp <> 0%nat ->
      snd (EmbedNotes.main chunker new_uuid respond notes table)
        = Embedding.Raised "AttributeError"
      /\ exists r, In r (fst cp) /\ VectorSearch.embedding r = None).
Proof.
  cbv zeta. unfold EmbedNotes.main. rewrite embed_phase_outcome.
  destruct (InsertFacts.chunk_phase_spec chunker new_uuid notes table)
    as (new & Heq & Hrows & _).
  rewrite Heq. cbn [fst snd].
  set (has_emb := fun r : VectorSearch.note_chunk =>
         match VectorSearch.embedding r with None => false | Some _ => true end).
  assert (Hall : forall l, forallb has_emb l = true
                 <-> forall r, In r l -> VectorSearch.embedding r <> None).
  { intros l. rewrite forallb_forall. unfold has_emb.
    split; intros H r Hr; specialize (H r Hr);
      destruct (VectorSearch.embedding r); congruence. }
  assert (Hnew : new <> [] -> exists r, In r new /\ VectorSearch.embedding r = None).
  { intros Hn. destruct new as [|r rs]; [congruence|]. exists r.
    split; [left; reflexivity|].
    inversion Hrows as [|? ? (n & _ & _ & _ & _ & _ & _ & _ & He & _) _]; subst.
    exact He. }
  split; [reflexivity|split].
  - destruct (forallb has_emb (table ++ new)%list) eqn:F.
    + pose proof (proj1 (Hall _) F) as F0; clear F; rename F0 into F. split; [intros _|intros _; reflexivity].
      destruct new as [|r rs].
      * split; [reflexivity|]. intros r Hr. apply F. rewrite app_nil_r. exact Hr.
      * destruct (Hnew ltac:(discriminate)) as (r' & Hr' & He).
        exfalso. apply (F r'); [apply in_or_app; right; exact Hr'|exact He].
    + split; [discriminate|]. intros (Hl & Ht).
      destruct new as [|r rs]; [|discriminate].
      rewrite app_nil_r in F. rewrite (proj2 (Hall table) Ht) in F. discriminate.
  - intros Hl. destruct new as [|r rs]; [contradiction|].
    destruct (Hnew ltac:(discriminate)) as (r' & Hr' & He).
    split.
    + destruct (forallb has_emb (table ++ r :: rs)%list) eqn:F; [|reflexivity].
      pose proof (proj1 (Hall _) F) as F0; clear F; rename F0 into F. exfalso.
      apply (F r'); [apply in_or_app; right; exact Hr'|exact He].
    + exists r'. split; [apply in_or_app; right; exact Hr'|exact He].
Qed.

(** [_prepare_asyncpg_url] (every key of [parse_qs] has a value): the
    query passed on keeps the other parameters in order with their first
    value and never contains [sslmode] or [channel_binding]; [ssl=True] is
    set exactly when the first [sslmode] value is [require], [verify-ca] or
    [verify-full], and not when [sslmode] is absent. *)
Theorem prepare_params_strips_ssl (params : DbUrl.query_dict) :
  forallb (fun p => match snd p with [] => false | _ => true end) params = true ->
  exists query ssl,
    DbUrl.prepare_params params = Some (query, ssl)
    /\ query = map (fun p => (fst p, hd "" (snd p)))
                 (filter (fun p => negb (String.eqb (fst p) "sslmode")
                                   && negb (String.eqb (fst p) "channel_binding"))
                    params)
    /\ Forall (fun p => fst p <> "sslmode" /\ fst p <> "channel_binding") query
    /\ ssl = match DbUrl.dict_get "sslmode" params with
             | Some (v :: _) => existsb (String.eqb v) DbUrl.SSL_MODES
             | _ => false
             end.
Proof.
  intros Hne. unfold DbUrl.prepare_params, DbUrl.dict_pop, DbUrl.dict_del.
  cbn beta iota zeta. rewrite UrlFacts.filter_filter.
  rewrite UrlFacts.first_values_some
    by (apply UrlFacts.forallb_filter; exact Hne).
  eexists; eexists. split; [reflexivity|split; [reflexivity|split]].
  - apply Forall_map, Forall_forall. intros p Hp. apply filter_In in Hp.
    destruct Hp as [_ Hp]. apply andb_prop in Hp. destruct Hp as [Ha Hb].
    apply negb_true_iff, String.eqb_neq in Ha, Hb. split; assumption.
  - destruct (DbUrl.dict_get "sslmode" params) as [[|v vs]|]; reflexivity.
Qed.

Lemma prepare_params_strips_ssl_witness :
  exists query ssl,
    DbUrl.prepare_params neon_params = Some (query, ssl)
    /\ query = map (fun p => (fst p, hd "" (snd p)))
                 (filter (fun p => negb (String.eqb (fst p) "sslmode")
                                   && negb (String.eqb (fst p) "channel_binding"))
                    neon_params)
    /\ Forall (fun p => fst p <> "sslmode" /\ fst p <> "channel_binding") query
    /\ ssl = match DbUrl.dict_get "sslmode" neon_params with
             | Some (v :: _) => existsb (String.eqb v) DbUrl.SSL_MODES
             | _ => false
             end.
Proof. apply prepare_params_strips_ssl. reflexivity. Defined.

(** [list_cases]: a case's [min_note_date] and [max_note_date] are [None]
    exactly when it has no notes; otherwise both are dates of its notes, and
    every note of the case falls on a date between them. *)
Theorem list_cases_note_span (notes : list EmbedNotes.case_note)
    (c : CaseList.case) :
  let times := CaseList.case_note_times c notes in
  match CaseList.case_row notes c with
  | (c', min_note_date, max_note_date) =>
      c' = c
      /\ (min_note_date = None <-> times = [])
      /\ (max_note_date = None <-> times = [])
      /\ (forall t, In t times -> exists lo hi,
            min_note_date = Some lo /\ max_note_date = Some hi
            /\ lo <= CaseList.to_date t <= hi)
      /\ (forall lo, min_note_date = Some lo ->
            exists t, In t times /\ lo = CaseList.to_date t)
      /\ (forall hi, max_note_date = Some hi ->
            exists t, In t times /\ hi = CaseList.to_date t)
  end.
Proof.
  cbv zeta. unfold CaseList.case_row.
  set (times := CaseList.case_note_times c notes).
  split; [reflexivity|split; [|split; [|split; [|split]]]].
  - rewrite <- CaseFacts.sql_min_none. destruct (CaseList.sql_min times);
      simpl; split; congruence.
  - rewrite <- CaseFacts.sql_max_none. destruct (CaseList.sql_max times);
      simpl; split; congruence.
  - intros t Ht.
    destruct (CaseList.sql_min times) as [lo|] eqn:Emin;
      [|apply CaseFacts.sql_min_none in Emin; rewrite Emin in Ht; destruct Ht].
    destruct (CaseList.sql_max times) as [hi|] eqn:Emax;
      [|apply CaseFacts.sql_max_none in Emax; rewrite Emax in Ht; destruct Ht].
    apply CaseFacts.sql_min_spec in Emin. apply CaseFacts.sql_max_spec in Emax.
    rewrite Forall_forall in Emin, Emax.
    exists (CaseList.to_date lo), (CaseList.to_date hi).
    split; [reflexivity|split; [reflexivity|]].
    split; apply CaseFacts.to_date_mono;
      [apply (proj2 Emin)|apply (proj2 Emax)]; exact Ht.
  - intros lo H. destruct (CaseList.sql_min times) as [m|] eqn:Emin;
      [|discriminate]. injection H as <-.
    exists m. split; [exact (proj1 (CaseFacts.sql_min_spec _ _ Emin))|reflexivity].
  - intros hi H. destruct (CaseList.sql_max times) as [m|] eqn:Emax;
      [|discriminate]. injection H as <-.
    exists m. split; [exact (proj1 (CaseFacts.sql_max_spec _ _ Emax))|reflexivity].
Qed.

(** [list_chunks_for_case] (some chunk rows): the response has one group
    per distinct note id, in no duplicate, [total_chunks] is the number of
    rows, each group lists the previews of its note's rows in row order with
    [chunk_count] their number, takes its date, type and caseworker from the
    note's first row, and the counts add up to [total_chunks]. *)
Theorem debug_chunks_grouped (rows : list DebugView.chunk_row) :
  rows <> [] ->
  exists gs,
    DebugView.group_rows rows = DebugView.Grouped (length gs) (length rows) gs
    /\ NoDup (map DebugView.g_note_id gs)
    /\ (forall nid, In nid (map DebugView.g_note_id gs)
                    <-> In nid (map DebugView.d_note_id rows))
    /\ Forall (fun g =>
         DebugView.g_chunks g = map DebugView.entry_of
           (filter (fun r => String.eqb (DebugView.d_note_id r)
                                        (DebugView.g_note_id g)) rows)
         /\ DebugView.g_chunk_count g = length (DebugView.g_chunks g)
         /\ exists r, find (fun r => String.eqb (DebugView.d_note_id r)
                                                (DebugView.g_note_id g)) rows
                      = Some r
             /\ DebugView.g_note_date g = DebugView.d_note_date r
             /\ DebugView.g_note_type g = DebugView.d_note_type r
             /\ DebugView.g_caseworker_name g = DebugView.d_caseworker_name r)
         gs
    /\ list_sum (map DebugView.g_chunk_count gs) = length rows.
Proof.
  intros Hne. exists (fold_left DebugView.add_row rows []).
  split; [destruct rows; [congruence|reflexivity]|].
  exact (DebugFacts.fold_groups rows).
Qed.

Lemma debug_chunks_grouped_witness :
  exists gs,
    DebugView.group_rows debug_rows
      = DebugView.Grouped (length gs) (length debug_rows) gs
    /\ NoDup (map DebugView.g_note_id gs)
    /\ (forall nid, In nid (map DebugView.g_note_id gs)
                    <-> In nid (map DebugView.d_note_id debug_rows))
    /\ Forall (fun g =>
         DebugView.g_chunks g = map DebugView.entry_of
           (filter (fun r => String.eqb (DebugView.d_note_id r)
                                        (DebugView.g_note_id g)) debug_rows)
         /\ DebugView.g_chunk_count g = length (DebugView.g_chunks g)
         /\ exists r, find (fun r => String.eqb (DebugView.d_note_id r)
                                                (DebugView.g_note_id g))
                        debug_rows = Some r
             /\ DebugView.g_note_date g = DebugView.d_note_date r
             /\ DebugView.g_note_type g = DebugView.d_note_type r
             /\ DebugView.g_caseworker_name g = DebugView.d_caseworker_name r)
         gs
    /\ list_sum (map DebugView.g_chunk_count gs) = length debug_rows.
Proof. apply debug_chunks_grouped. discriminate. Defined.
